(** * Segment trees (templates/segment_tree.py)

    A shallow embedding of the two classes of [templates/segment_tree.py],
    [SegmentTree] (point update, range sum) and [LazySegmentTree] (range
    add with lazy propagation, range sum), and the properties of the
    range-query engine stated in the specification.

    Python integers are unbounded, so values and indices are [Z]; the
    backing arrays [self.tree] and [self.lazy] are Python lists, modelled
    as [list Z] with Python's indexing rules (negative indices count from
    the end, anything else out of range raises [IndexError]).  The methods
    mutate [self]; they are written in a state-and-exception monad over
    the object's fields.  The helpers recurse on the segment, which is not
    structural (and does not terminate on the empty segment [0, -1]), so
    each helper takes the remaining recursion depth as fuel and raises
    [RecursionError] when it is exhausted, as the interpreter does. *)

From Stdlib Require Import ZArith Lia List.
From stdpp Require Import base list.

Open Scope Z_scope.

(** ** Exceptions and results *)

(** [IndexError] and [RecursionError] are the exceptions the interpreter
    can raise in this file.  [InvalidRange] and [InvalidSize] are the
    conditions named in section 7 of the specification; no statement of
    the source raises them. *)
Inductive exn : Set :=
  | IndexError
  | RecursionError
  | InvalidRange
  | InvalidSize.

Inductive result (A : Type) : Type :=
  | Ok (a : A)
  | Raise (e : exn).
Arguments Ok {A} a.
Arguments Raise {A} e.

(** ** Python lists of integers *)

Module Py.

(** Position in a list of length [len] that the subscript [i] denotes. *)
Definition index (len i : Z) : option nat :=
  if (0 <=? i) && (i <? len) then Some (Z.to_nat i)
  else if (- len <=? i) && (i <? 0) then Some (Z.to_nat (len + i))
  else None.

(** [l[i]] *)
Definition getitem (l : list Z) (i : Z) : result Z :=
  match index (Z.of_nat (length l)) i with
  | Some k =>
      match l !! k with
      | Some x => Ok x
      | None => Raise IndexError
      end
  | None => Raise IndexError
  end.

(** [l[i] = x] *)
Definition setitem (l : list Z) (i : Z) (x : Z) : result (list Z) :=
  match index (Z.of_nat (length l)) i with
  | Some k => Ok (<[k := x]> l)
  | None => Raise IndexError
  end.

(** [[0] * k] *)
Definition zeros (k : Z) : list Z := replicate (Z.to_nat k) 0.

(** [len(l)] *)
Definition len (l : list Z) : Z := Z.of_nat (length l).

(** [sum(l)] *)
Definition sum (l : list Z) : Z := foldr Z.add 0 l.

End Py.

(** ** The monad of methods: state of [self] and exceptions *)

Definition M (S A : Type) : Type := S -> result (A * S).

Definition ret {S A} (a : A) : M S A := fun s => Ok (a, s).

Definition bind {S A B} (m : M S A) (k : A -> M S B) : M S B :=
  fun s =>
    match m s with
    | Ok (a, s') => k a s'
    | Raise e => Raise e
    end.

Definition raise {S A} (e : exn) : M S A := fun _ => Raise e.

(** A result computed without touching the state. *)
Definition lift {S A} (r : result A) : M S A :=
  fun s => match r with Ok a => Ok (a, s) | Raise e => Raise e end.

Notation "'let!' x ':=' m 'in' k" := (bind m (fun x => k))
  (at level 10, x name, m at level 100, k at level 200).
Notation "'do!' m 'in' k" := (bind m (fun _ => k))
  (at level 10, m at level 100, k at level 200).

(** ** class SegmentTree *)

Module SegmentTree.

Record t : Type := mk { n : Z; tree : list Z }.

(** [self.tree[i]] *)
Definition tree_get (i : Z) : M t Z :=
  fun self => lift (Py.getitem (tree self) i) self.

(** [self.tree[i] = x] *)
Definition tree_set (i x : Z) : M t unit :=
  fun self =>
    match Py.setitem (tree self) i x with
    | Ok l => Ok (tt, mk (n self) l)
    | Raise e => Raise e
    end.

Fixpoint build (fuel : nat) (arr : list Z) (node start end_ : Z) : M t unit :=
  match fuel with
  | O => raise RecursionError
  | S fuel =>
      if start =? end_ then
        let! x := lift (Py.getitem arr start) in
        tree_set node x
      else
        let mid := (start + end_) / 2 in
        do! build fuel arr (2 * node + 1) start mid in
        do! build fuel arr (2 * node + 2) (mid + 1) end_ in
        let! a := tree_get (2 * node + 1) in
        let! b := tree_get (2 * node + 2) in
        tree_set node (a + b)
  end.

(** [SegmentTree(arr)] *)
Definition __init__ (fuel : nat) (arr : list Z) : result t :=
  let n := Py.len arr in
  match build fuel arr 0 0 (n - 1) (mk n (Py.zeros (4 * n))) with
  | Ok (_, self) => Ok self
  | Raise e => Raise e
  end.

Fixpoint _update_helper (fuel : nat) (idx val node start end_ : Z) : M t unit :=
  match fuel with
  | O => raise RecursionError
  | S fuel =>
      if start =? end_ then
        tree_set node val
      else
        let mid := (start + end_) / 2 in
        do! (if idx <=? mid
             then _update_helper fuel idx val (2 * node + 1) start mid
             else _update_helper fuel idx val (2 * node + 2) (mid + 1) end_) in
        let! a := tree_get (2 * node + 1) in
        let! b := tree_get (2 * node + 2) in
        tree_set node (a + b)
  end.

Definition update (fuel : nat) (idx val : Z) : M t unit :=
  fun self => _update_helper fuel idx val 0 0 (n self - 1) self.

Fixpoint _query_helper (fuel : nat) (l r node start end_ : Z) : M t Z :=
  match fuel with
  | O => raise RecursionError
  | S fuel =>
      if (r <? start) || (end_ <? l) then ret 0
      else if (l <=? start) && (end_ <=? r) then tree_get node
      else
        let mid := (start + end_) / 2 in
        let! left_sum := _query_helper fuel l r (2 * node + 1) start mid in
        let! right_sum := _query_helper fuel l r (2 * node + 2) (mid + 1) end_ in
        ret (left_sum + right_sum)
  end.

Definition query (fuel : nat) (l r : Z) : M t Z :=
  fun self => _query_helper fuel l r 0 0 (n self - 1) self.

End SegmentTree.

(** ** class LazySegmentTree *)

Module LazySegmentTree.

Record t : Type := mk { n : Z; tree : list Z; lazy : list Z }.

Definition tree_get (i : Z) : M t Z :=
  fun self => lift (Py.getitem (tree self) i) self.

Definition tree_set (i x : Z) : M t unit :=
  fun self =>
    match Py.setitem (tree self) i x with
    | Ok l => Ok (tt, mk (n self) l (lazy self))
    | Raise e => Raise e
    end.

Definition lazy_get (i : Z) : M t Z :=
  fun self => lift (Py.getitem (lazy self) i) self.

Definition lazy_set (i x : Z) : M t unit :=
  fun self =>
    match Py.setitem (lazy self) i x with
    | Ok l => Ok (tt, mk (n self) (tree self) l)
    | Raise e => Raise e
    end.

Fixpoint build (fuel : nat) (arr : list Z) (node start end_ : Z) : M t unit :=
  match fuel with
  | O => raise RecursionError
  | S fuel =>
      if start =? end_ then
        let! x := lift (Py.getitem arr start) in
        tree_set node x
      else
        let mid := (start + end_) / 2 in
        do! build fuel arr (2 * node + 1) start mid in
        do! build fuel arr (2 * node + 2) (mid + 1) end_ in
        let! a := tree_get (2 * node + 1) in
        let! b := tree_get (2 * node + 2) in
        tree_set node (a + b)
  end.

(** [LazySegmentTree(arr)] *)
Definition __init__ (fuel : nat) (arr : list Z) : result t :=
  let n := Py.len arr in
  match build fuel arr 0 0 (n - 1)
          (mk n (Py.zeros (4 * n)) (Py.zeros (4 * n))) with
  | Ok (_, self) => Ok self
  | Raise e => Raise e
  end.

(** [x += y] on an element reads it, computes, then stores. *)
Definition _push (node start end_ : Z) : M t unit :=
  let! z := lazy_get node in
  if z =? 0 then ret tt
  else
    let! a := tree_get node in
    let! z := lazy_get node in
    do! tree_set node (a + (end_ - start + 1) * z) in
    do! (if start =? end_ then ret tt
         else
           let! c := lazy_get (2 * node + 1) in
           let! z := lazy_get node in
           do! lazy_set (2 * node + 1) (c + z) in
           let! c := lazy_get (2 * node + 2) in
           let! z := lazy_get node in
           lazy_set (2 * node + 2) (c + z)) in
    lazy_set node 0.

Fixpoint _range_update_helper (fuel : nat) (l r val node start end_ : Z)
  : M t unit :=
  match fuel with
  | O => raise RecursionError
  | S fuel =>
      do! _push node start end_ in
      if (r <? start) || (end_ <? l) then ret tt
      else if (l <=? start) && (end_ <=? r) then
        let! z := lazy_get node in
        do! lazy_set node (z + val) in
        _push node start end_
      else
        let mid := (start + end_) / 2 in
        do! _range_update_helper fuel l r val (2 * node + 1) start mid in
        do! _range_update_helper fuel l r val (2 * node + 2) (mid + 1) end_ in
        let! a := tree_get (2 * node + 1) in
        let! b := tree_get (2 * node + 2) in
        tree_set node (a + b)
  end.

Definition range_update (fuel : nat) (l r val : Z) : M t unit :=
  fun self => _range_update_helper fuel l r val 0 0 (n self - 1) self.

Fixpoint _range_query_helper (fuel : nat) (l r node start end_ : Z) : M t Z :=
  match fuel with
  | O => raise RecursionError
  | S fuel =>
      if (r <? start) || (end_ <? l) then ret 0
      else
        do! _push node start end_ in
        if (l <=? start) && (end_ <=? r) then tree_get node
        else
          let mid := (start + end_) / 2 in
          let! left_sum := _range_query_helper fuel l r (2 * node + 1) start mid in
          let! right_sum :=
            _range_query_helper fuel l r (2 * node + 2) (mid + 1) end_ in
          ret (left_sum + right_sum)
  end.

Definition range_query (fuel : nat) (l r : Z) : M t Z :=
  fun self => _range_query_helper fuel l r 0 0 (n self - 1) self.

End LazySegmentTree.

(** ** The push-first query of the specification (section 4.5)

    Section 4.5 asks that every visited node run the push primitive before
    the outside / inside / partial decision.  This is that algorithm,
    written from the specification's words, to be compared with
    [LazySegmentTree._range_query_helper]. *)

Module Spec.

Import LazySegmentTree.

Fixpoint range_query_helper (fuel : nat) (l r node start end_ : Z) : M t Z :=
  match fuel with
  | O => raise RecursionError
  | S fuel =>
      do! _push node start end_ in
      if (r <? start) || (end_ <? l) then ret 0
      else if (l <=? start) && (end_ <=? r) then tree_get node
      else
        let mid := (start + end_) / 2 in
        let! left_sum := range_query_helper fuel l r (2 * node + 1) start mid in
        let! right_sum :=
          range_query_helper fuel l r (2 * node + 2) (mid + 1) end_ in
        ret (left_sum + right_sum)
  end.

Definition range_query (fuel : nat) (l r : Z) : M t Z :=
  fun self => range_query_helper fuel l r 0 0 (n self - 1) self.

End Spec.

(** ** Sequences, sums and the shape of the implicit tree *)

(** The element at position [i] of a sequence (0 outside of it). *)
Definition at_ (vals : list Z) (i : Z) : Z :=
  if i <? 0 then 0 else default 0 (vals !! Z.to_nat i).

(** [v a + v (a+1) + ...], [k] terms. *)
Fixpoint rsum (v : Z -> Z) (a : Z) (k : nat) : Z :=
  match k with
  | O => 0
  | S k => v a + rsum v (a + 1) k
  end.

(** Sum of [v] over the inclusive interval [[a, b]]; 0 when it is empty. *)
Definition zsum (v : Z -> Z) (a b : Z) : Z := rsum v a (Z.to_nat (b - a + 1)).

(** Point overwrite and range increment on a sequence. *)
Definition upd (v : Z -> Z) (j x : Z) : Z -> Z :=
  fun i => if i =? j then x else v i.

Definition add_range (v : Z -> Z) (l r d : Z) : Z -> Z :=
  fun i => if (l <=? i) && (i <=? r) then v i + d else v i.

Definition set_at (vals : list Z) (j x : Z) : list Z :=
  imap (fun i y => if Z.of_nat i =? j then x else y) vals.

Definition add_on (vals : list Z) (l r d : Z) : list Z :=
  imap (fun i y => if (l <=? Z.of_nat i) && (Z.of_nat i <=? r) then y + d else y)
       vals.

(** Index [idx] brought into [[s, e]]: the leaf a point update lands on. *)
Definition clamp (s e idx : Z) : Z := Z.max s (Z.min idx e).

(** [sub node k]: slot [k] belongs to the subtree rooted at slot [node]
    in the numbering root = 0, children of [i] = [2i+1] and [2i+2]. *)
Definition sub (node k : Z) : Prop :=
  exists d : nat,
    2 ^ Z.of_nat d * (node + 1) <= k + 1 < 2 ^ Z.of_nat d * (node + 2).

(** Two arrays agree on every slot outside the subtree of [node]. *)
Definition same_outside (node : Z) (l l' : list Z) : Prop :=
  forall k, 0 <= k -> ~ sub node k -> l' !! Z.to_nat k = l !! Z.to_nat k.

(** Two arrays agree on every slot of the subtree of [node]. *)
Definition same_inside (node : Z) (l l' : list Z) : Prop :=
  forall k, 0 <= k -> sub node k -> l' !! Z.to_nat k = l !! Z.to_nat k.

(** A recursion of depth [fuel] reaches the leaves of a segment of [len]
    elements. *)
Definition depth_ok (fuel : nat) (len : Z) : Prop :=
  len <= 2 ^ (Z.of_nat fuel - 1).

(** Slot [node], covering [[s, e]], lies inside the [4n] allocation and
    so do the slots below it. *)
Definition slot_ok (n node s e : Z) : Prop :=
  0 <= node < 4 * n /\
  exists p, 0 < p /\ p <= node + 1 < 2 * p /\ (e - s) * p < n.

(** [covers n i s e]: the recursion from the root [(0, 0, n-1)] reaches
    node [i] with the segment [[s, e]]. *)
Inductive covers (n : Z) : Z -> Z -> Z -> Prop :=
  | covers_root : covers n 0 0 (n - 1)
  | covers_left i s e :
      covers n i s e -> s < e -> covers n (2 * i + 1) s ((s + e) / 2)
  | covers_right i s e :
      covers n i s e -> s < e -> covers n (2 * i + 2) ((s + e) / 2 + 1) e.

(** ** Invariants *)

(** Eager tree below [node]: a leaf holds its element, an internal node
    holds the sum of its two children. *)
Inductive eager_ok (tr : list Z) (v : Z -> Z) : Z -> Z -> Z -> Prop :=
  | eager_leaf node s :
      0 <= node ->
      tr !! Z.to_nat node = Some (v s) ->
      eager_ok tr v node s s
  | eager_node node s e a b :
      0 <= node -> s < e ->
      tr !! Z.to_nat (2 * node + 1) = Some a ->
      tr !! Z.to_nat (2 * node + 2) = Some b ->
      tr !! Z.to_nat node = Some (a + b) ->
      eager_ok tr v (2 * node + 1) s ((s + e) / 2) ->
      eager_ok tr v (2 * node + 2) ((s + e) / 2 + 1) e ->
      eager_ok tr v node s e.

(** Lazy tree below [node], where [acc] is the amount per element still
    pending in the ancestors of [node]: the aggregate of a node lacks its
    own pending amount and that of its ancestors. *)
Inductive lazy_ok (tr lz : list Z) (v : Z -> Z) : Z -> Z -> Z -> Z -> Prop :=
  | lazy_leaf node s acc a z :
      0 <= node ->
      tr !! Z.to_nat node = Some a ->
      lz !! Z.to_nat node = Some z ->
      a + (z + acc) = v s ->
      lazy_ok tr lz v node s s acc
  | lazy_node node s e acc a z :
      0 <= node -> s < e ->
      tr !! Z.to_nat node = Some a ->
      lz !! Z.to_nat node = Some z ->
      a + (e - s + 1) * (z + acc) = zsum v s e ->
      lazy_ok tr lz v (2 * node + 1) s ((s + e) / 2) (acc + z) ->
      lazy_ok tr lz v (2 * node + 2) ((s + e) / 2 + 1) e (acc + z) ->
      lazy_ok tr lz v node s e acc.

(** [EagerInv st vals]: [st] is a [SegmentTree] whose current leaf values
    are [vals]. *)
Definition EagerInv (st : SegmentTree.t) (vals : list Z) : Prop :=
  SegmentTree.n st = Py.len vals /\ 1 <= SegmentTree.n st /\
  eager_ok (SegmentTree.tree st) (at_ vals) 0 0 (SegmentTree.n st - 1).

(** [LazyInv st vals]: [st] is a [LazySegmentTree] whose current element
    values, pending amounts included, are [vals]. *)
Definition LazyInv (st : LazySegmentTree.t) (vals : list Z) : Prop :=
  LazySegmentTree.n st = Py.len vals /\ 1 <= LazySegmentTree.n st /\
  lazy_ok (LazySegmentTree.tree st) (LazySegmentTree.lazy st) (at_ vals)
          0 0 (LazySegmentTree.n st - 1) 0.

(** The invariant of the eager tree as section 3 of the specification
    words it, node by node: an internal node holds the sum of its two
    children, a leaf covering the single index [k] holds the current value
    at [k]. *)
Definition eager_invariant (st : SegmentTree.t) (vals : list Z) : Prop :=
  SegmentTree.n st = Py.len vals /\ 1 <= SegmentTree.n st /\
  forall i s e,
    covers (SegmentTree.n st) i s e ->
    (s < e ->
     exists a b,
       SegmentTree.tree st !! Z.to_nat (2 * i + 1) = Some a /\
       SegmentTree.tree st !! Z.to_nat (2 * i + 2) = Some b /\
       SegmentTree.tree st !! Z.to_nat i = Some (a + b)) /\
    (s = e -> SegmentTree.tree st !! Z.to_nat i = Some (at_ vals s)).

(** ** Repeated calls *)

(** [k] calls of [query(l, r)] in a row, collecting the results. *)
Fixpoint eager_queries (fuel : nat) (l r : Z) (k : nat)
  : M SegmentTree.t (list Z) :=
  match k with
  | O => ret []
  | S k =>
      let! x := SegmentTree.query fuel l r in
      let! xs := eager_queries fuel l r k in
      ret (x :: xs)
  end.

(** [k] calls of [range_query(l, r)] in a row, collecting the results. *)
Fixpoint lazy_queries (fuel : nat) (l r : Z) (k : nat)
  : M LazySegmentTree.t (list Z) :=
  match k with
  | O => ret []
  | S k =>
      let! x := LazySegmentTree.range_query fuel l r in
      let! xs := lazy_queries fuel l r k in
      ret (x :: xs)
  end.

(** ** Histories of calls *)

Inductive eager_call : Set :=
  | Update (idx val : Z)
  | Query (l r : Z).

Inductive lazy_call : Set :=
  | RangeUpdate (l r val : Z)
  | RangeQuery (l r : Z).

Definition eager_do (fuel : nat) (c : eager_call) : M SegmentTree.t unit :=
  match c with
  | Update idx val => SegmentTree.update fuel idx val
  | Query l r => do! SegmentTree.query fuel l r in ret tt
  end.

Definition lazy_do (fuel : nat) (c : lazy_call) : M LazySegmentTree.t unit :=
  match c with
  | RangeUpdate l r val => LazySegmentTree.range_update fuel l r val
  | RangeQuery l r => do! LazySegmentTree.range_query fuel l r in ret tt
  end.

(** The calls of [cs], one after the other. *)
Fixpoint eager_run (fuel : nat) (cs : list eager_call) : M SegmentTree.t unit :=
  match cs with
  | [] => ret tt
  | c :: cs => do! eager_do fuel c in eager_run fuel cs
  end.

Fixpoint lazy_run (fuel : nat) (cs : list lazy_call)
  : M LazySegmentTree.t unit :=
  match cs with
  | [] => ret tt
  | c :: cs => do! lazy_do fuel c in lazy_run fuel cs
  end.

(** ** Slices, overlaps and the shape of a tree object *)

(** [vals[l : r + 1]], for [0 <= l]. *)
Definition slice (vals : list Z) (l r : Z) : list Z :=
  take (Z.to_nat (r - l + 1)) (drop (Z.to_nat l) vals).

(** Number of indices that lie both in [[l, r]] and in [[a, b]]. *)
Definition overlap (l r a b : Z) : Z :=
  Z.max 0 (Z.min r b - Z.max l a + 1).

(** A [SegmentTree] as a program holds it: the invariant, and the [tree]
    array at its allocated length [4 * n]. *)
Definition eager_wf (st : SegmentTree.t) (vals : list Z) : Prop :=
  EagerInv st vals /\
  length (SegmentTree.tree st) = Z.to_nat (4 * SegmentTree.n st).

(** A [LazySegmentTree] as a program holds it: the invariant, both arrays
    at their allocated length [4 * n], and nothing pending at the root. *)
Definition lazy_wf (st : LazySegmentTree.t) (vals : list Z) : Prop :=
  LazyInv st vals /\
  length (LazySegmentTree.tree st) = Z.to_nat (4 * LazySegmentTree.n st) /\
  length (LazySegmentTree.lazy st) = Z.to_nat (4 * LazySegmentTree.n st) /\
  LazySegmentTree.lazy st !! 0%nat = Some 0.

(** ** Sample trees

    The eager tree of the [__main__] block, and a lazy tree that has
    amounts pending below the root: [LazySegmentTree([1, 2, 3, 4, 5])]
    after [range_update(1, 3, 2)] and [range_update(0, 4, 7)]. *)

Definition demo_arr : list Z := [1; 3; 5; 7; 9; 11].

Definition demo_eager : SegmentTree.t :=
  Eval vm_compute in
    match SegmentTree.__init__ 4 demo_arr with
    | Ok st => st
    | Raise _ => SegmentTree.mk 0 []
    end.

Definition demo_vals : list Z := [8; 11; 12; 13; 12].

Definition demo_lazy : LazySegmentTree.t :=
  Eval vm_compute in
    match LazySegmentTree.__init__ 4 [1; 2; 3; 4; 5] with
    | Ok st =>
        match (do! LazySegmentTree.range_update 4 1 3 2 in
               LazySegmentTree.range_update 4 0 4 7) st with
        | Ok (_, st) => st
        | Raise _ => st
        end
    | Raise _ => LazySegmentTree.mk 0 [] []
    end.

(* ================================================================= *)
(** * Properties *)

(** The end-to-end scenario of the [__main__] block. *)
Example main_eager :
  match SegmentTree.__init__ 10 [1; 3; 5; 7; 9; 11] with
  | Ok st =>
      match SegmentTree.query 10 0 2 st with
      | Ok (a, st) =>
          match SegmentTree.update 10 1 10 st with
          | Ok (_, st) =>
              match SegmentTree.query 10 0 2 st with
              | Ok (b, _) => (a, b) = (9, 16)
              | _ => False
              end
          | _ => False
          end
      | _ => False
      end
  | _ => False
  end.
Proof. vm_compute. reflexivity. Qed.

Example main_lazy :
  match LazySegmentTree.__init__ 10 [1; 2; 3; 4; 5] with
  | Ok st =>
      match LazySegmentTree.range_query 10 0 4 st with
      | Ok (a, st) =>
          match LazySegmentTree.range_update 10 1 3 2 st with
          | Ok (_, st) =>
              match LazySegmentTree.range_query 10 0 4 st with
              | Ok (b, st) =>
                  match LazySegmentTree.range_query 10 1 3 st with
                  | Ok (c, _) => (a, b, c) = (15, 21, 15)
                  | _ => False
                  end
              | _ => False
              end
          | _ => False
          end
      | _ => False
      end
  | _ => False
  end.
Proof. vm_compute. reflexivity. Qed.

(** ** Sums over intervals *)

Section Sums.

Variables v w : Z -> Z.

Lemma rsum_app a (k1 k2 : nat) :
  rsum v a (k1 + k2) = rsum v a k1 + rsum v (a + Z.of_nat k1) k2.
Proof.
  revert a; induction k1 as [|k1 IH]; intros a.
  - cbn [Nat.add rsum]. replace (a + Z.of_nat 0) with a by lia. lia.
  - cbn [Nat.add rsum]. rewrite IH.
    replace (a + 1 + Z.of_nat k1) with (a + Z.of_nat (S k1)) by lia. lia.
Qed.

Lemma rsum_ext a (k : nat) :
  (forall i, a <= i < a + Z.of_nat k -> v i = w i) ->
  rsum v a k = rsum w a k.
Proof.
  revert a; induction k as [|k IH]; intros a H; [reflexivity|].
  cbn [rsum]. rewrite (H a) by lia. f_equal. apply IH. intros i Hi.
  apply H. lia.
Qed.

Lemma zsum_empty a b : b < a -> zsum v a b = 0.
Proof.
  intros H. unfold zsum. replace (Z.to_nat (b - a + 1)) with O by lia.
  reflexivity.
Qed.

Lemma zsum_one a : zsum v a a = v a.
Proof.
  unfold zsum. replace (Z.to_nat (a - a + 1)) with 1%nat by lia.
  simpl. lia.
Qed.

Lemma zsum_split a m b :
  a <= m + 1 -> m <= b ->
  zsum v a b = zsum v a m + zsum v (m + 1) b.
Proof.
  intros H1 H2. unfold zsum.
  replace (Z.to_nat (b - a + 1))
    with (Z.to_nat (m - a + 1) + Z.to_nat (b - (m + 1) + 1))%nat by lia.
  rewrite rsum_app. do 2 f_equal. lia.
Qed.

Lemma zsum_ext a b :
  (forall i, a <= i <= b -> v i = w i) -> zsum v a b = zsum w a b.
Proof.
  intros H. apply rsum_ext. intros i Hi. apply H. lia.
Qed.

End Sums.

Lemma rsum_add_const v d a (k : nat) :
  rsum (fun i => v i + d) a k = rsum v a k + Z.of_nat k * d.
Proof.
  revert a; induction k as [|k IH]; intros a; [reflexivity|].
  cbn [rsum]. rewrite IH. lia.
Qed.

Lemma zsum_add_range v l r d s e :
  l <= s -> e <= r -> s <= e + 1 ->
  zsum (add_range v l r d) s e = zsum v s e + (e - s + 1) * d.
Proof.
  intros Hl Hr Hse.
  rewrite (zsum_ext _ (fun i => v i + d)).
  - unfold zsum. rewrite rsum_add_const, Z2Nat.id by lia. reflexivity.
  - intros i Hi. unfold add_range.
    destruct (Z.leb_spec l i), (Z.leb_spec i r); simpl; lia.
Qed.

(** The part of a query [[l, r]] that falls in a node's segment splits at
    the node's midpoint, also when the query is empty or inverted. *)
Lemma zsum_clip_split v l r s e :
  s < e ->
  zsum v (Z.max l s) (Z.min r e) =
  zsum v (Z.max l s) (Z.min r ((s + e) / 2)) +
  zsum v (Z.max l ((s + e) / 2 + 1)) (Z.min r e).
Proof.
  intros Hse.
  assert (Hm : s <= (s + e) / 2 < e)
    by (split; [apply Z.div_le_lower_bound | apply Z.div_lt_upper_bound]; lia).
  set (mid := (s + e) / 2) in *.
  destruct (Z_lt_le_dec (mid + 1) (Z.max l s)) as [H1|H1].
  - rewrite (zsum_empty v (Z.max l s) (Z.min r mid)) by lia.
    replace (Z.max l (mid + 1)) with (Z.max l s) by lia. lia.
  - destruct (Z_lt_le_dec (Z.min r e) mid) as [H2|H2].
    + rewrite (zsum_empty v (Z.max l (mid + 1)) (Z.min r e)) by lia.
      replace (Z.min r mid) with (Z.min r e) by lia. lia.
    + rewrite (zsum_split v (Z.max l s) mid (Z.min r e)) by lia.
      replace (Z.min r mid) with mid by lia.
      replace (Z.max l (mid + 1)) with (mid + 1) by lia. reflexivity.
Qed.

Lemma mid_bounds s e : s < e -> s <= (s + e) / 2 < e.
Proof.
  intros H.
  split; [apply Z.div_le_lower_bound | apply Z.div_lt_upper_bound]; lia.
Qed.

(** [sum(vals)] is the sum of the elements at positions [0 .. len-1]. *)
Lemma rsum_at_shift x vals a (k : nat) :
  0 <= a ->
  rsum (at_ (x :: vals)) (a + 1) k = rsum (at_ vals) a k.
Proof.
  revert a. induction k as [|k IH]; intros a Ha; [reflexivity|].
  cbn [rsum]. rewrite IH by lia. f_equal.
  unfold at_.
  destruct (Z.ltb_spec (a + 1) 0), (Z.ltb_spec a 0); try lia.
  replace (Z.to_nat (a + 1)) with (S (Z.to_nat a)) by lia. reflexivity.
Qed.

Lemma zsum_all vals : zsum (at_ vals) 0 (Py.len vals - 1) = Py.sum vals.
Proof.
  unfold zsum, Py.len.
  replace (Z.to_nat (Z.of_nat (length vals) - 1 - 0 + 1)) with (length vals)
    by lia.
  induction vals as [|x vals IH]; [reflexivity|].
  cbn [length rsum Py.sum foldr].
  rewrite (rsum_at_shift x vals 0) by lia.
  fold (Py.sum vals). rewrite IH. reflexivity.
Qed.

(** ** Slots of the implicit tree *)

Lemma pow2_pos (d : nat) : 0 < 2 ^ Z.of_nat d.
Proof. apply Z.pow_pos_nonneg; lia. Qed.

Lemma pow2_succ (d : nat) : 2 ^ Z.of_nat (S d) = 2 * 2 ^ Z.of_nat d.
Proof. rewrite Nat2Z.inj_succ, Z.pow_succ_r by lia. reflexivity. Qed.

Lemma pow2_lt (d d' : nat) :
  (d < d')%nat -> 2 * 2 ^ Z.of_nat d <= 2 ^ Z.of_nat d'.
Proof.
  intros H. rewrite <- pow2_succ.
  apply Z.pow_le_mono_r; lia.
Qed.

Lemma sub_refl node : sub node node.
Proof. exists O. simpl. lia. Qed.

Lemma sub_left node k : sub (2 * node + 1) k -> sub node k.
Proof.
  intros [d Hd]. exists (S d). rewrite pow2_succ.
  pose proof (pow2_pos d). nia.
Qed.

Lemma sub_right node k : sub (2 * node + 2) k -> sub node k.
Proof.
  intros [d Hd]. exists (S d). rewrite pow2_succ.
  pose proof (pow2_pos d). nia.
Qed.

Lemma sub_le node k : 0 <= node -> sub node k -> node <= k.
Proof. intros Hn [d Hd]. pose proof (pow2_pos d). nia. Qed.

Lemma sub_disjoint node k :
  0 <= node -> sub (2 * node + 1) k -> sub (2 * node + 2) k -> False.
Proof.
  intros Hn [d Hd] [d' Hd'].
  pose proof (pow2_pos d). pose proof (pow2_pos d').
  destruct (lt_eq_lt_dec d d') as [[Hlt|Heq]|Hlt].
  - pose proof (pow2_lt _ _ Hlt). nia.
  - subst d'. nia.
  - pose proof (pow2_lt _ _ Hlt). nia.
Qed.

Lemma not_sub_children node k :
  ~ sub node k -> ~ sub (2 * node + 1) k /\ ~ sub (2 * node + 2) k.
Proof. intros H; split; intros H'; apply H; auto using sub_left, sub_right. Qed.

Lemma same_outside_refl node l : same_outside node l l.
Proof. intros k _ _. reflexivity. Qed.

Lemma same_outside_trans node l1 l2 l3 :
  same_outside node l1 l2 -> same_outside node l2 l3 -> same_outside node l1 l3.
Proof. intros H1 H2 k Hk Hs. rewrite H2, H1 by assumption. reflexivity. Qed.

Lemma same_outside_left node l l' :
  same_outside (2 * node + 1) l l' -> same_outside node l l'.
Proof. intros H k Hk Hs. apply H; [assumption|]. now apply not_sub_children. Qed.

Lemma same_outside_right node l l' :
  same_outside (2 * node + 2) l l' -> same_outside node l l'.
Proof. intros H k Hk Hs. apply H; [assumption|]. now apply not_sub_children. Qed.

Lemma same_outside_insert node i x l :
  0 <= i -> sub node i -> same_outside node l (<[Z.to_nat i := x]> l).
Proof.
  intros Hi Hs k Hk Hn. apply list_lookup_insert_ne.
  intros Heq. apply Hn. replace k with i by lia. assumption.
Qed.

(** ** Recursion depth *)

Lemma depth_ok_0 len : depth_ok 0 len -> len <= 0.
Proof. unfold depth_ok. simpl. lia. Qed.

Lemma depth_ok_step fuel s e :
  depth_ok (S fuel) (e - s + 1) -> s < e ->
  depth_ok fuel ((s + e) / 2 - s + 1) /\
  depth_ok fuel (e - ((s + e) / 2 + 1) + 1).
Proof.
  unfold depth_ok. intros H Hse.
  replace (Z.of_nat (S fuel) - 1) with (Z.of_nat fuel) in H by lia.
  destruct fuel as [|f]; [simpl in H; lia|].
  rewrite pow2_succ in H.
  replace (Z.of_nat (S f) - 1) with (Z.of_nat f) by lia.
  pose proof (Z.mul_div_le (s + e) 2 ltac:(lia)).
  pose proof (Z.mul_succ_div_gt (s + e) 2 ltac:(lia)).
  lia.
Qed.

Lemma depth_ok_log2 fuel len :
  0 < len -> Z.log2_up len < Z.of_nat fuel -> depth_ok fuel len.
Proof.
  intros Hl H. unfold depth_ok.
  apply Z.log2_up_le_pow2; lia.
Qed.

Lemma slot_ok_root n : 1 <= n -> slot_ok n 0 0 (n - 1).
Proof. intros H. split; [lia|]. exists 1. lia. Qed.

Lemma slot_ok_step n node s e :
  slot_ok n node s e -> s < e ->
  slot_ok n (2 * node + 1) s ((s + e) / 2) /\
  slot_ok n (2 * node + 2) ((s + e) / 2 + 1) e.
Proof.
  intros [Hn (p & Hp & Hnp & Hlen)] Hse.
  pose proof (Z.mul_div_le (s + e) 2 ltac:(lia)).
  pose proof (Z.mul_succ_div_gt (s + e) 2 ltac:(lia)).
  assert (p < n) by nia.
  split; (split; [lia|]); exists (2 * p); (split; [lia|]); (split; [lia|]); nia.
Qed.

(** ** Subscripting with a slot number *)

Lemma getitem_ok (l : list Z) i x :
  0 <= i -> l !! Z.to_nat i = Some x -> Py.getitem l i = Ok x.
Proof.
  intros Hi Hx. pose proof (lookup_lt_Some _ _ _ Hx) as Hlt.
  unfold Py.getitem, Py.index.
  destruct (Z.leb_spec 0 i); [|lia].
  destruct (Z.ltb_spec i (Z.of_nat (length l))); [|lia].
  simpl. rewrite Hx. reflexivity.
Qed.

Lemma setitem_ok (l : list Z) i x :
  0 <= i -> (Z.to_nat i < length l)%nat ->
  Py.setitem l i x = Ok (<[Z.to_nat i := x]> l).
Proof.
  intros Hi Hlt. unfold Py.setitem, Py.index.
  destruct (Z.leb_spec 0 i); [|lia].
  destruct (Z.ltb_spec i (Z.of_nat (length l))); [|lia].
  reflexivity.
Qed.

Lemma at_lookup (vals : list Z) i :
  0 <= i < Py.len vals -> vals !! Z.to_nat i = Some (at_ vals i).
Proof.
  intros Hi. unfold at_, Py.len in *.
  destruct (Z.ltb_spec i 0); [lia|].
  destruct (lookup_lt_is_Some_2 vals (Z.to_nat i)) as [x Hx]; [lia|].
  rewrite Hx. reflexivity.
Qed.

(** ** Stepping through monadic code *)

Lemma bind_ok {S A B} (m : M S A) (k : A -> M S B) s a s' :
  m s = Ok (a, s') -> bind m k s = k a s'.
Proof. intros H. unfold bind. rewrite H. reflexivity. Qed.

Lemma bind_raise {S A B} (m : M S A) (k : A -> M S B) s e :
  m s = Raise e -> bind m k s = Raise e.
Proof. intros H. unfold bind. rewrite H. reflexivity. Qed.

Lemma same_inside_refl node l : same_inside node l l.
Proof. intros k _ _. reflexivity. Qed.

Lemma same_inside_trans node l1 l2 l3 :
  same_inside node l1 l2 -> same_inside node l2 l3 -> same_inside node l1 l3.
Proof. intros H1 H2 k Hk Hs. rewrite H2, H1 by assumption. reflexivity. Qed.

Lemma same_inside_left node l l' :
  same_inside node l l' -> same_inside (2 * node + 1) l l'.
Proof. intros H k Hk Hs. apply H; auto using sub_left. Qed.

Lemma same_inside_right node l l' :
  same_inside node l l' -> same_inside (2 * node + 2) l l'.
Proof. intros H k Hk Hs. apply H; auto using sub_right. Qed.

(** What happens below one child leaves the other child's subtree alone. *)
Lemma outside_right_inside_left node l l' :
  0 <= node -> same_outside (2 * node + 2) l l' -> same_inside (2 * node + 1) l l'.
Proof. intros Hn H k Hk Hs. apply H; [assumption|]. eauto using sub_disjoint. Qed.

Lemma outside_left_inside_right node l l' :
  0 <= node -> same_outside (2 * node + 1) l l' -> same_inside (2 * node + 2) l l'.
Proof. intros Hn H k Hk Hs. apply H; [assumption|]. eauto using sub_disjoint. Qed.

(** A store at a slot above [c] leaves the subtree of [c] alone. *)
Lemma same_inside_insert c i x l :
  0 <= i < c -> same_inside c l (<[Z.to_nat i := x]> l).
Proof.
  intros Hi k Hk Hs. apply list_lookup_insert_ne.
  apply sub_le in Hs; lia.
Qed.

(** ** The eager tree *)

Lemma eager_tree_get st i x :
  0 <= i -> SegmentTree.tree st !! Z.to_nat i = Some x ->
  SegmentTree.tree_get i st = Ok (x, st).
Proof.
  intros Hi Hx. unfold SegmentTree.tree_get, lift.
  rewrite (getitem_ok _ _ _ Hi Hx). reflexivity.
Qed.

Lemma eager_tree_set st i x :
  0 <= i -> (Z.to_nat i < length (SegmentTree.tree st))%nat ->
  SegmentTree.tree_set i x st =
  Ok (tt, SegmentTree.mk (SegmentTree.n st)
            (<[Z.to_nat i := x]> (SegmentTree.tree st))).
Proof.
  intros Hi Hlt. unfold SegmentTree.tree_set.
  rewrite (setitem_ok _ _ _ Hi Hlt). reflexivity.
Qed.

Lemma eager_ok_bounds tr v node s e :
  eager_ok tr v node s e -> 0 <= node /\ s <= e.
Proof. destruct 1; lia. Qed.

Lemma eager_ok_lookup tr v node s e :
  eager_ok tr v node s e -> tr !! Z.to_nat node = Some (zsum v s e).
Proof.
  induction 1 as [node s Hn Hl | node s e a b Hn Hse Ha Hb Hab _ IH1 _ IH2].
  - rewrite zsum_one. assumption.
  - pose proof (mid_bounds _ _ Hse).
    rewrite (zsum_split v s ((s + e) / 2) e) by lia.
    congruence.
Qed.

Lemma eager_ok_frame tr tr' v node s e :
  eager_ok tr v node s e -> same_inside node tr tr' -> eager_ok tr' v node s e.
Proof.
  induction 1 as [node s Hn Hl | node s e a b Hn Hse Ha Hb Hab _ IH1 _ IH2];
    intros Hin.
  - apply eager_leaf; [assumption|].
    rewrite Hin; auto using sub_refl.
  - apply eager_node with a b; auto using same_inside_left, same_inside_right.
    + rewrite Hin; auto using sub_left, sub_refl. lia.
    + rewrite Hin; auto using sub_right, sub_refl. lia.
    + rewrite Hin; auto using sub_refl.
Qed.

Lemma eager_ok_ext tr v w node s e :
  eager_ok tr v node s e -> (forall i, s <= i <= e -> v i = w i) ->
  eager_ok tr w node s e.
Proof.
  induction 1 as [node s Hn Hl | node s e a b Hn Hse Ha Hb Hab _ IH1 _ IH2];
    intros Hvw.
  - apply eager_leaf; [assumption|]. rewrite <- Hvw by lia. assumption.
  - pose proof (mid_bounds _ _ Hse).
    apply eager_node with a b; auto.
    + apply IH1. intros i Hi. apply Hvw. lia.
    + apply IH2. intros i Hi. apply Hvw. lia.
Qed.

(** The merge step [tree[node] = tree[2*node+1] + tree[2*node+2]]. *)
Lemma eager_merge n tr v node s e :
  0 <= node -> s < e -> (Z.to_nat node < length tr)%nat ->
  eager_ok tr v (2 * node + 1) s ((s + e) / 2) ->
  eager_ok tr v (2 * node + 2) ((s + e) / 2 + 1) e ->
  exists tr',
    (let! a := SegmentTree.tree_get (2 * node + 1) in
     let! b := SegmentTree.tree_get (2 * node + 2) in
     SegmentTree.tree_set node (a + b)) (SegmentTree.mk n tr)
      = Ok (tt, SegmentTree.mk n tr') /\
    length tr' = length tr /\
    eager_ok tr' v node s e /\
    same_outside node tr tr'.
Proof.
  intros Hn Hse Hlen O1 O2.
  pose proof (eager_ok_lookup _ _ _ _ _ O1) as G1.
  pose proof (eager_ok_lookup _ _ _ _ _ O2) as G2.
  rewrite (bind_ok _ _ _ _ _
             (eager_tree_get (SegmentTree.mk n tr) (2 * node + 1) _ ltac:(lia) G1)).
  rewrite (bind_ok _ _ _ _ _
             (eager_tree_get (SegmentTree.mk n tr) (2 * node + 2) _ ltac:(lia) G2)).
  rewrite eager_tree_set by (simpl; lia). simpl.
  eexists; split; [reflexivity|]. split; [apply length_insert|]. split.
  - eapply eager_node; try lia.
    + rewrite list_lookup_insert_ne by lia. exact G1.
    + rewrite list_lookup_insert_ne by lia. exact G2.
    + apply list_lookup_insert_eq. lia.
    + eapply eager_ok_frame; [exact O1|]. apply same_inside_insert. lia.
    + eapply eager_ok_frame; [exact O2|]. apply same_inside_insert. lia.
  - apply same_outside_insert; [lia|apply sub_refl].
Qed.

Lemma eager_build_ok fuel : forall arr node s e n tr,
  depth_ok fuel (e - s + 1) -> 0 <= s <= e -> e < Py.len arr ->
  slot_ok (Py.len arr) node s e ->
  length tr = Z.to_nat (4 * Py.len arr) ->
  exists tr',
    SegmentTree.build fuel arr node s e (SegmentTree.mk n tr)
      = Ok (tt, SegmentTree.mk n tr') /\
    length tr' = length tr /\
    eager_ok tr' (at_ arr) node s e /\
    same_outside node tr tr'.
Proof.
  induction fuel as [|fuel IH]; intros arr node s e n tr Hd Hse He Hslot Hlen.
  - apply depth_ok_0 in Hd. lia.
  - cbn [SegmentTree.build]. destruct (Z.eqb_spec s e) as [->|Hne].
    + destruct Hslot as [Hn _].
      rewrite (bind_ok _ _ _ (at_ arr e) (SegmentTree.mk n tr)).
      2:{ unfold lift. rewrite (getitem_ok arr e (at_ arr e)); auto; try lia.
          apply at_lookup. lia. }
      rewrite eager_tree_set by (simpl; lia). simpl.
      eexists; split; [reflexivity|]. split; [apply length_insert|]. split.
      * apply eager_leaf; [lia|]. apply list_lookup_insert_eq. lia.
      * apply same_outside_insert; [lia|apply sub_refl].
    + assert (Hlt : s < e) by lia.
      destruct (depth_ok_step _ _ _ Hd Hlt) as [Hd1 Hd2].
      destruct (slot_ok_step _ _ _ _ Hslot Hlt) as [Hs1 Hs2].
      pose proof (mid_bounds _ _ Hlt) as Hmid.
      destruct Hslot as [Hn _].
      destruct (IH arr (2 * node + 1) s ((s + e) / 2) n tr)
        as (tr1 & E1 & L1 & O1 & F1); try assumption; try lia.
      rewrite (bind_ok _ _ _ _ _ E1).
      destruct (IH arr (2 * node + 2) ((s + e) / 2 + 1) e n tr1)
        as (tr2 & E2 & L2 & O2 & F2); try assumption; try lia.
      rewrite (bind_ok _ _ _ _ _ E2).
      assert (O1' : eager_ok tr2 (at_ arr) (2 * node + 1) s ((s + e) / 2)).
      { eapply eager_ok_frame; [exact O1|].
        apply outside_right_inside_left; [lia|assumption]. }
      destruct (eager_merge n tr2 (at_ arr) node s e)
        as (tr3 & E3 & L3 & O3 & F3); try assumption; try lia.
      rewrite E3.
      eexists; split; [reflexivity|]. split; [lia|]. split; [assumption|].
      eapply same_outside_trans; [|exact F3].
      eapply same_outside_trans; [apply same_outside_left; exact F1|].
      apply same_outside_right; exact F2.
Qed.

Lemma clamp_left s e idx :
  s < e -> idx <= (s + e) / 2 -> clamp s e idx = clamp s ((s + e) / 2) idx.
Proof. intros Hse H. unfold clamp. pose proof (mid_bounds s e). lia. Qed.

Lemma clamp_right s e idx :
  s < e -> (s + e) / 2 < idx -> clamp s e idx = clamp ((s + e) / 2 + 1) e idx.
Proof. intros Hse H. unfold clamp. pose proof (mid_bounds s e). lia. Qed.

Lemma clamp_range s e idx : s <= e -> s <= clamp s e idx <= e.
Proof. unfold clamp. lia. Qed.

Lemma eager_update_ok fuel : forall idx val node s e n tr v,
  eager_ok tr v node s e -> depth_ok fuel (e - s + 1) ->
  exists tr',
    SegmentTree._update_helper fuel idx val node s e (SegmentTree.mk n tr)
      = Ok (tt, SegmentTree.mk n tr') /\
    length tr' = length tr /\
    eager_ok tr' (upd v (clamp s e idx) val) node s e /\
    same_outside node tr tr'.
Proof.
  induction fuel as [|fuel IH]; intros idx val node s e n tr v Hok Hd.
  - apply depth_ok_0 in Hd. apply eager_ok_bounds in Hok. lia.
  - cbn [SegmentTree._update_helper].
    inversion Hok as [node' s' Hn Hl | node' s' e' a b Hn Hse Ha Hb Hab O1 O2];
      subst.
    + rewrite Z.eqb_refl.
      pose proof (lookup_lt_Some _ _ _ Hl) as Hlt.
      rewrite eager_tree_set by (simpl; lia). simpl.
      eexists; split; [reflexivity|]. split; [apply length_insert|]. split.
      * apply eager_leaf; [lia|].
        rewrite list_lookup_insert_eq by lia. f_equal.
        unfold upd, clamp. replace (Z.max e (Z.min idx e)) with e by lia.
        rewrite Z.eqb_refl. reflexivity.
      * apply same_outside_insert; [lia|apply sub_refl].
    + destruct (Z.eqb_spec s e) as [|_]; [lia|].
      destruct (depth_ok_step _ _ _ Hd Hse) as [Hd1 Hd2].
      pose proof (mid_bounds _ _ Hse) as Hmid.
      pose proof (lookup_lt_Some _ _ _ Hab) as Hlt.
      destruct (Z.leb_spec idx ((s + e) / 2)) as [Hi|Hi].
      * destruct (IH idx val (2 * node + 1) s ((s + e) / 2) n tr v O1 Hd1)
          as (tr1 & E1 & L1 & O1' & F1).
        rewrite (bind_ok _ _ _ _ _ E1).
        rewrite <- clamp_left in O1' by lia.
        pose proof (clamp_range s ((s + e) / 2) idx ltac:(lia)) as Hc.
        rewrite <- clamp_left in Hc by lia.
        destruct (eager_merge n tr1 (upd v (clamp s e idx) val) node s e)
          as (tr3 & E3 & L3 & O3 & F3); try assumption; try lia.
        { eapply eager_ok_ext.
          - eapply eager_ok_frame; [exact O2|].
            apply outside_left_inside_right; [lia|assumption].
          - intros i Hi'. unfold upd.
            destruct (Z.eqb_spec i (clamp s e idx)); [lia|reflexivity]. }
        rewrite E3.
        eexists; split; [reflexivity|]. split; [lia|]. split; [assumption|].
        eapply same_outside_trans; [apply same_outside_left; exact F1|exact F3].
      * destruct (IH idx val (2 * node + 2) ((s + e) / 2 + 1) e n tr v O2 Hd2)
          as (tr1 & E1 & L1 & O2' & F1).
        rewrite (bind_ok _ _ _ _ _ E1).
        rewrite <- clamp_right in O2' by lia.
        pose proof (clamp_range ((s + e) / 2 + 1) e idx ltac:(lia)) as Hc.
        rewrite <- clamp_right in Hc by lia.
        destruct (eager_merge n tr1 (upd v (clamp s e idx) val) node s e)
          as (tr3 & E3 & L3 & O3 & F3); try assumption; try lia.
        { eapply eager_ok_ext.
          - eapply eager_ok_frame; [exact O1|].
            apply outside_right_inside_left; [lia|assumption].
          - intros i Hi'. unfold upd.
            destruct (Z.eqb_spec i (clamp s e idx)); [lia|reflexivity]. }
        rewrite E3.
        eexists; split; [reflexivity|]. split; [lia|]. split; [assumption|].
        eapply same_outside_trans; [apply same_outside_right; exact F1|exact F3].
Qed.

Lemma eager_query_ok fuel : forall l r node s e st v,
  eager_ok (SegmentTree.tree st) v node s e -> depth_ok fuel (e - s + 1) ->
  SegmentTree._query_helper fuel l r node s e st
    = Ok (zsum v (Z.max l s) (Z.min r e), st).
Proof.
  induction fuel as [|fuel IH]; intros l r node s e st v Hok Hd.
  - apply depth_ok_0 in Hd. apply eager_ok_bounds in Hok. lia.
  - cbn [SegmentTree._query_helper].
    destruct (Z.ltb_spec r s) as [H1|H1]; simpl.
    { rewrite zsum_empty by lia. reflexivity. }
    destruct (Z.ltb_spec e l) as [H2|H2]; simpl.
    { rewrite zsum_empty by lia. reflexivity. }
    destruct (Z.leb_spec l s) as [H3|H3], (Z.leb_spec e r) as [H4|H4]; simpl.
    1:{ replace (Z.max l s) with s by lia. replace (Z.min r e) with e by lia.
        apply eager_tree_get; [apply eager_ok_bounds in Hok; lia|].
        eapply eager_ok_lookup; eassumption. }
    all: inversion Hok as [node' s' Hn Hl | node' s' e' a b Hn Hse Ha Hb Hab O1 O2];
      subst; try lia.
    all: destruct (depth_ok_step _ _ _ Hd Hse) as [Hd1 Hd2].
    all: rewrite (bind_ok _ _ _ _ _ (IH l r _ _ _ st v O1 Hd1)).
    all: rewrite (bind_ok _ _ _ _ _ (IH l r _ _ _ st v O2 Hd2)).
    all: unfold ret; rewrite (zsum_clip_split v l r s e Hse); reflexivity.
Qed.

(** ** The lazy tree *)

Lemma lazy_tree_get n tr lz i x :
  0 <= i -> tr !! Z.to_nat i = Some x ->
  LazySegmentTree.tree_get i (LazySegmentTree.mk n tr lz)
    = Ok (x, LazySegmentTree.mk n tr lz).
Proof.
  intros Hi Hx. unfold LazySegmentTree.tree_get, lift. simpl.
  rewrite (getitem_ok _ _ _ Hi Hx). reflexivity.
Qed.

Lemma lazy_tree_set n tr lz i x :
  0 <= i -> (Z.to_nat i < length tr)%nat ->
  LazySegmentTree.tree_set i x (LazySegmentTree.mk n tr lz)
    = Ok (tt, LazySegmentTree.mk n (<[Z.to_nat i := x]> tr) lz).
Proof.
  intros Hi Hlt. unfold LazySegmentTree.tree_set. simpl.
  rewrite (setitem_ok _ _ _ Hi Hlt). reflexivity.
Qed.

Lemma lazy_lazy_get n tr lz i x :
  0 <= i -> lz !! Z.to_nat i = Some x ->
  LazySegmentTree.lazy_get i (LazySegmentTree.mk n tr lz)
    = Ok (x, LazySegmentTree.mk n tr lz).
Proof.
  intros Hi Hx. unfold LazySegmentTree.lazy_get, lift. simpl.
  rewrite (getitem_ok _ _ _ Hi Hx). reflexivity.
Qed.

Lemma lazy_lazy_set n tr lz i x :
  0 <= i -> (Z.to_nat i < length lz)%nat ->
  LazySegmentTree.lazy_set i x (LazySegmentTree.mk n tr lz)
    = Ok (tt, LazySegmentTree.mk n tr (<[Z.to_nat i := x]> lz)).
Proof.
  intros Hi Hlt. unfold LazySegmentTree.lazy_set. simpl.
  rewrite (setitem_ok _ _ _ Hi Hlt). reflexivity.
Qed.

Lemma lazy_ok_bounds tr lz v node s e acc :
  lazy_ok tr lz v node s e acc -> 0 <= node /\ s <= e.
Proof. destruct 1; lia. Qed.

Lemma lazy_ok_lookup tr lz v node s e acc :
  lazy_ok tr lz v node s e acc ->
  exists a z,
    tr !! Z.to_nat node = Some a /\ lz !! Z.to_nat node = Some z /\
    a + (e - s + 1) * (z + acc) = zsum v s e.
Proof.
  destruct 1 as [node s acc a z Hn Ha Hz Hv | node s e acc a z Hn Hse Ha Hz Hv _ _];
    exists a, z; repeat split; try assumption.
  rewrite zsum_one. lia.
Qed.

Lemma lazy_ok_pushed tr lz v node s e :
  lazy_ok tr lz v node s e 0 -> lz !! Z.to_nat node = Some 0 ->
  tr !! Z.to_nat node = Some (zsum v s e).
Proof.
  intros Hok Hz. destruct (lazy_ok_lookup _ _ _ _ _ _ _ Hok) as (a & z & Ha & Hz' & Hv).
  rewrite Ha. f_equal. assert (z = 0) by congruence. subst z. lia.
Qed.

Lemma lazy_ok_frame tr tr' lz lz' v node s e acc :
  lazy_ok tr lz v node s e acc ->
  same_inside node tr tr' -> same_inside node lz lz' ->
  lazy_ok tr' lz' v node s e acc.
Proof.
  induction 1 as [node s acc a z Hn Ha Hz Hv
                 | node s e acc a z Hn Hse Ha Hz Hv _ IH1 _ IH2];
    intros Ht Hl.
  - apply lazy_leaf with a z; try assumption.
    + rewrite Ht; auto using sub_refl.
    + rewrite Hl; auto using sub_refl.
  - apply lazy_node with a z;
      auto using same_inside_left, same_inside_right.
    + rewrite Ht; auto using sub_refl.
    + rewrite Hl; auto using sub_refl.
Qed.

Lemma lazy_ok_ext tr lz v w node s e acc :
  lazy_ok tr lz v node s e acc -> (forall i, s <= i <= e -> v i = w i) ->
  lazy_ok tr lz w node s e acc.
Proof.
  induction 1 as [node s acc a z Hn Ha Hz Hv
                 | node s e acc a z Hn Hse Ha Hz Hv _ IH1 _ IH2];
    intros Hvw.
  - apply lazy_leaf with a z; try assumption. rewrite <- Hvw by lia. assumption.
  - pose proof (mid_bounds _ _ Hse).
    apply lazy_node with a z; try assumption.
    + rewrite <- (zsum_ext v w s e Hvw). assumption.
    + apply IH1. intros i Hi. apply Hvw. lia.
    + apply IH2. intros i Hi. apply Hvw. lia.
Qed.

(** Adding [d] to every element of the segment is the same as [d] more
    pending above the node. *)
Lemma lazy_ok_add tr lz v l r d node s e acc :
  lazy_ok tr lz v node s e acc -> l <= s -> e <= r ->
  lazy_ok tr lz (add_range v l r d) node s e (acc + d).
Proof.
  induction 1 as [node s acc a z Hn Ha Hz Hv
                 | node s e acc a z Hn Hse Ha Hz Hv _ IH1 _ IH2];
    intros Hl Hr.
  - apply lazy_leaf with a z; try assumption. unfold add_range.
    destruct (Z.leb_spec l s), (Z.leb_spec s r); simpl; lia.
  - pose proof (mid_bounds _ _ Hse).
    apply lazy_node with a z; try assumption.
    + rewrite zsum_add_range by lia. lia.
    + replace (acc + d + z) with (acc + z + d) by lia. apply IH1; lia.
    + replace (acc + d + z) with (acc + z + d) by lia. apply IH2; lia.
Qed.

(** An amount pending above a node can be moved into the node's own
    pending cell. *)
Lemma lazy_ok_shift tr tr' lz lz' v c s e acc z zc :
  lazy_ok tr lz v c s e (acc + z) ->
  lz !! Z.to_nat c = Some zc ->
  lz' !! Z.to_nat c = Some (zc + z) ->
  (forall k, 0 <= k -> sub c k -> k <> c ->
             lz' !! Z.to_nat k = lz !! Z.to_nat k) ->
  same_inside c tr tr' ->
  lazy_ok tr' lz' v c s e acc.
Proof.
  intros Hok Hzc Hzc' Hl Ht.
  assert (Hl1 : 0 <= c -> same_inside (2 * c + 1) lz lz').
  { intros Hc k Hk Hs. apply Hl; auto using sub_left.
    apply sub_le in Hs; lia. }
  assert (Hl2 : 0 <= c -> same_inside (2 * c + 2) lz lz').
  { intros Hc k Hk Hs. apply Hl; auto using sub_right.
    apply sub_le in Hs; lia. }
  inversion Hok as [c' s' acc' a z0 Hn Ha Hz Hv
                   | c' s' e' acc' a z0 Hn Hse Ha Hz Hv O1 O2]; subst;
    assert (z0 = zc) by congruence; subst z0.
  - apply lazy_leaf with a (zc + z); try assumption; [|lia].
    rewrite Ht; auto using sub_refl.
  - apply lazy_node with a (zc + z); try assumption.
    + rewrite Ht; auto using sub_refl.
    + rewrite <- Hv. f_equal. f_equal. lia.
    + replace (acc + (zc + z)) with (acc + z + zc) by lia.
      eapply lazy_ok_frame; [exact O1| |]; auto using same_inside_left.
    + replace (acc + (zc + z)) with (acc + z + zc) by lia.
      eapply lazy_ok_frame; [exact O2| |]; auto using same_inside_right.
Qed.

Lemma bind_ret {S A B} (a : A) (k : A -> M S B) s : bind (ret a) k s = k a s.
Proof. reflexivity. Qed.

(** [_push] on a node whose ancestors have nothing pending: it runs, the
    node's own pending cell becomes 0, the tree below still represents the
    same sequence, and nothing outside the node's subtree is written. *)
Lemma lazy_push_ok n tr lz v node s e :
  lazy_ok tr lz v node s e 0 ->
  exists tr' lz',
    LazySegmentTree._push node s e (LazySegmentTree.mk n tr lz)
      = Ok (tt, LazySegmentTree.mk n tr' lz') /\
    length tr' = length tr /\ length lz' = length lz /\
    lazy_ok tr' lz' v node s e 0 /\
    lz' !! Z.to_nat node = Some 0 /\
    same_outside node tr tr' /\ same_outside node lz lz'.
Proof.
  intros Hok.
  destruct (lazy_ok_lookup _ _ _ _ _ _ _ Hok) as (a & z & Ha & Hz & Hv).
  destruct (lazy_ok_bounds _ _ _ _ _ _ _ Hok) as [Hn Hse].
  pose proof (lookup_lt_Some _ _ _ Ha) as Hlt.
  pose proof (lookup_lt_Some _ _ _ Hz) as Hlz.
  unfold LazySegmentTree._push.
  rewrite (bind_ok _ _ _ _ _ (lazy_lazy_get n tr lz node z Hn Hz)).
  destruct (Z.eqb_spec z 0) as [->|Hz0].
  { exists tr, lz. repeat split; auto using same_outside_refl. }
  rewrite (bind_ok _ _ _ _ _ (lazy_tree_get n tr lz node a Hn Ha)).
  rewrite (bind_ok _ _ _ _ _ (lazy_lazy_get n tr lz node z Hn Hz)).
  rewrite (bind_ok _ _ _ _ _ (lazy_tree_set n tr lz node _ Hn Hlt)).
  set (tr1 := <[Z.to_nat node := a + (e - s + 1) * z]> tr).
  assert (Ht1 : tr1 !! Z.to_nat node = Some (a + (e - s + 1) * z))
    by (apply list_lookup_insert_eq; lia).
  assert (Fo : same_outside node tr tr1)
    by (apply same_outside_insert; [lia|apply sub_refl]).
  inversion Hok as [c' s' acc' a0 z0 _ Ha0 Hz0' Hv0
                   | c' s' e' acc' a0 z0 _ Hlt' Ha0 Hz0' Hv0 O1 O2]; subst.
  - rewrite Z.eqb_refl, bind_ret.
    rewrite (lazy_lazy_set n tr1 lz node 0 Hn Hlz).
    exists tr1, (<[Z.to_nat node := 0]> lz).
    split; [reflexivity|]. split; [apply length_insert|].
    split; [apply length_insert|]. split; [|split; [|split]].
    + apply lazy_leaf with (a + (e - e + 1) * z) 0; try assumption.
      * apply list_lookup_insert_eq. lia.
      * rewrite zsum_one in Hv. lia.
    + apply list_lookup_insert_eq. lia.
    + assumption.
    + apply same_outside_insert; [lia|apply sub_refl].
  - destruct (Z.eqb_spec s e) as [|_]; [lia|].
    assert (z0 = z) by congruence. subst z0. clear Ha0 Hz0' Hv0.
    destruct (lazy_ok_lookup _ _ _ _ _ _ _ O1) as (a1 & z1 & Ha1 & Hz1 & _).
    destruct (lazy_ok_lookup _ _ _ _ _ _ _ O2) as (a2 & z2 & Ha2 & Hz2 & _).
    pose proof (lookup_lt_Some _ _ _ Hz1) as Hl1.
    pose proof (lookup_lt_Some _ _ _ Hz2) as Hl2.
    set (L := 2 * node + 1) in *. set (R := 2 * node + 2) in *.
    set (lz1 := <[Z.to_nat L := z1 + z]> lz).
    set (lz2 := <[Z.to_nat R := z2 + z]> lz1).
    set (lz3 := <[Z.to_nat node := 0]> lz2).
    assert (HL : 0 <= L) by (unfold L; lia).
    assert (HR : 0 <= R) by (unfold R; lia).
    assert (E1 : lz1 !! Z.to_nat node = Some z).
    { unfold lz1. rewrite list_lookup_insert_ne by (unfold L; lia). exact Hz. }
    assert (E2 : lz1 !! Z.to_nat R = Some z2).
    { unfold lz1. rewrite list_lookup_insert_ne by (unfold L, R; lia). exact Hz2. }
    assert (Len1 : length lz1 = length lz) by apply length_insert.
    assert (Len2 : length lz2 = length lz)
      by (unfold lz2; rewrite length_insert; exact Len1).
    rewrite (bind_ok _ _ _ tt (LazySegmentTree.mk n tr1 lz2)).
    2:{ rewrite (bind_ok _ _ _ _ _ (lazy_lazy_get n tr1 lz L z1 HL Hz1)).
        rewrite (bind_ok _ _ _ _ _ (lazy_lazy_get n tr1 lz node z Hn Hz)).
        rewrite (bind_ok _ _ _ _ _ (lazy_lazy_set n tr1 lz L _ HL Hl1)).
        fold lz1.
        rewrite (bind_ok _ _ _ _ _ (lazy_lazy_get n tr1 lz1 R z2 HR E2)).
        rewrite (bind_ok _ _ _ _ _ (lazy_lazy_get n tr1 lz1 node z Hn E1)).
        apply lazy_lazy_set; [assumption|lia]. }
    rewrite (lazy_lazy_set n tr1 lz2 node 0 Hn ltac:(lia)). fold lz3.
    assert (G1 : lz3 !! Z.to_nat L = Some (z1 + z)).
    { unfold lz3, lz2, lz1.
      rewrite !list_lookup_insert_ne by (unfold L, R; lia).
      apply list_lookup_insert_eq. lia. }
    assert (G2 : lz3 !! Z.to_nat R = Some (z2 + z)).
    { unfold lz3, lz2.
      rewrite list_lookup_insert_ne by (unfold R; lia).
      apply list_lookup_insert_eq. lia. }
    exists tr1, lz3.
    split; [reflexivity|]. split; [apply length_insert|].
    split; [unfold lz3; rewrite length_insert; exact Len2|].
    split; [|split; [|split]].
    + apply lazy_node with (a + (e - s + 1) * z) 0; try assumption.
      * apply list_lookup_insert_eq. lia.
      * lia.
      * replace (0 + z) with (0 + 0 + z) in O1 by lia.
        eapply lazy_ok_shift; [exact O1|exact Hz1|exact G1| |].
        -- intros k Hk Hs Hne. pose proof (sub_le _ _ HL Hs).
           unfold lz3, lz2, lz1.
           rewrite !list_lookup_insert_ne; [reflexivity|lia| |unfold L in *; lia].
           intros Heq. apply (sub_disjoint node R Hn); [|apply sub_refl].
           replace R with k by lia. exact Hs.
        -- apply same_inside_insert. unfold L; lia.
      * replace (0 + z) with (0 + 0 + z) in O2 by lia.
        eapply lazy_ok_shift; [exact O2|exact Hz2|exact G2| |].
        -- intros k Hk Hs Hne. pose proof (sub_le _ _ HR Hs).
           unfold lz3, lz2, lz1.
           rewrite !list_lookup_insert_ne; [reflexivity| |lia|unfold R in *; lia].
           intros Heq. apply (sub_disjoint node L Hn); [apply sub_refl|].
           replace L with k by lia. exact Hs.
        -- apply same_inside_insert. unfold R; lia.
    + apply list_lookup_insert_eq. lia.
    + assumption.
    + unfold lz3, lz2, lz1.
      eapply same_outside_trans;
        [|apply same_outside_insert; [lia|apply sub_refl]].
      eapply same_outside_trans;
        [|apply same_outside_insert; [lia|apply sub_right, sub_refl]].
      apply same_outside_insert; [lia|apply sub_left, sub_refl].
Qed.

Lemma lazy_ok_children tr lz v node s e :
  lazy_ok tr lz v node s e 0 -> lz !! Z.to_nat node = Some 0 -> s < e ->
  lazy_ok tr lz v (2 * node + 1) s ((s + e) / 2) 0 /\
  lazy_ok tr lz v (2 * node + 2) ((s + e) / 2 + 1) e 0.
Proof.
  intros Hok Hz Hse.
  inversion Hok as [c' s' acc' a0 z0 _ Ha0 Hz0 Hv0
                   | c' s' e' acc' a0 z0 _ Hlt' Ha0 Hz0 Hv0 O1 O2]; subst;
    [lia|].
  assert (z0 = 0) by congruence. subst z0. auto.
Qed.

Lemma lazy_ok_rebuild tr lz v node s e :
  0 <= node -> s < e ->
  tr !! Z.to_nat node = Some (zsum v s e) ->
  lz !! Z.to_nat node = Some 0 ->
  lazy_ok tr lz v (2 * node + 1) s ((s + e) / 2) 0 ->
  lazy_ok tr lz v (2 * node + 2) ((s + e) / 2 + 1) e 0 ->
  lazy_ok tr lz v node s e 0.
Proof.
  intros Hn Hse Ha Hz O1 O2.
  apply lazy_node with (zsum v s e) 0; auto; lia.
Qed.

(** The merge step of [_range_update_helper], once both children have
    been visited. *)
Lemma lazy_merge n tr lz v node s e :
  0 <= node -> s < e -> (Z.to_nat node < length tr)%nat ->
  lz !! Z.to_nat node = Some 0 ->
  lazy_ok tr lz v (2 * node + 1) s ((s + e) / 2) 0 ->
  lz !! Z.to_nat (2 * node + 1) = Some 0 ->
  lazy_ok tr lz v (2 * node + 2) ((s + e) / 2 + 1) e 0 ->
  lz !! Z.to_nat (2 * node + 2) = Some 0 ->
  exists tr',
    (let! a := LazySegmentTree.tree_get (2 * node + 1) in
     let! b := LazySegmentTree.tree_get (2 * node + 2) in
     LazySegmentTree.tree_set node (a + b)) (LazySegmentTree.mk n tr lz)
      = Ok (tt, LazySegmentTree.mk n tr' lz) /\
    length tr' = length tr /\
    lazy_ok tr' lz v node s e 0 /\
    same_outside node tr tr'.
Proof.
  intros Hn Hse Hlen Hz O1 Z1 O2 Z2.
  pose proof (lazy_ok_pushed _ _ _ _ _ _ O1 Z1) as G1.
  pose proof (lazy_ok_pushed _ _ _ _ _ _ O2 Z2) as G2.
  pose proof (mid_bounds _ _ Hse) as Hmid.
  rewrite (bind_ok _ _ _ _ _ (lazy_tree_get n tr lz (2 * node + 1) _ ltac:(lia) G1)).
  rewrite (bind_ok _ _ _ _ _ (lazy_tree_get n tr lz (2 * node + 2) _ ltac:(lia) G2)).
  rewrite lazy_tree_set by lia.
  eexists; split; [reflexivity|]. split; [apply length_insert|]. split.
  - apply lazy_ok_rebuild; try assumption.
    + rewrite list_lookup_insert_eq by lia. f_equal.
      rewrite (zsum_split v s ((s + e) / 2) e) by lia. reflexivity.
    + eapply lazy_ok_frame; [exact O1| |apply same_inside_refl].
      apply same_inside_insert. lia.
    + eapply lazy_ok_frame; [exact O2| |apply same_inside_refl].
      apply same_inside_insert. lia.
  - apply same_outside_insert; [lia|apply sub_refl].
Qed.

(** A slot that is not in the subtree of [c] keeps its content. *)
Lemma same_outside_at c i l l' :
  same_outside c l l' -> 0 <= i -> ~ sub c i ->
  l' !! Z.to_nat i = l !! Z.to_nat i.
Proof. intros H Hi Hs. apply H; assumption. Qed.

Lemma not_sub_parent node c :
  0 <= node -> node < c -> ~ sub c node.
Proof. intros Hn Hc Hs. apply sub_le in Hs; lia. Qed.

Lemma not_sub_left_right node : 0 <= node -> ~ sub (2 * node + 1) (2 * node + 2).
Proof. intros Hn Hs. eapply sub_disjoint; eauto using sub_refl. Qed.

Lemma not_sub_right_left node : 0 <= node -> ~ sub (2 * node + 2) (2 * node + 1).
Proof. intros Hn Hs. eapply sub_disjoint; eauto using sub_refl. Qed.

Lemma add_range_outside v l r d s e :
  r < s \/ e < l -> forall i, s <= i <= e -> v i = add_range v l r d i.
Proof.
  intros H i Hi. unfold add_range.
  destruct (Z.leb_spec l i), (Z.leb_spec i r); simpl; lia.
Qed.

Lemma lazy_update_ok fuel : forall l r d node s e n tr lz v,
  lazy_ok tr lz v node s e 0 -> depth_ok fuel (e - s + 1) ->
  exists tr' lz',
    LazySegmentTree._range_update_helper fuel l r d node s e
      (LazySegmentTree.mk n tr lz) = Ok (tt, LazySegmentTree.mk n tr' lz') /\
    length tr' = length tr /\ length lz' = length lz /\
    lazy_ok tr' lz' (add_range v l r d) node s e 0 /\
    lz' !! Z.to_nat node = Some 0 /\
    same_outside node tr tr' /\ same_outside node lz lz'.
Proof.
  induction fuel as [|fuel IH]; intros l r d node s e n tr lz v Hok Hd.
  - apply depth_ok_0 in Hd. apply lazy_ok_bounds in Hok. lia.
  - cbn [LazySegmentTree._range_update_helper].
    destruct (lazy_ok_bounds _ _ _ _ _ _ _ Hok) as [Hn Hse].
    destruct (lazy_push_ok n _ _ _ _ _ _ Hok)
      as (tr1 & lz1 & E1 & Lt1 & Ll1 & O1 & Z1 & Ft1 & Fl1).
    rewrite (bind_ok _ _ _ _ _ E1).
    destruct (Z.ltb_spec r s) as [H1|H1]; simpl.
    { exists tr1, lz1. repeat split; try assumption.
      eapply lazy_ok_ext; [exact O1|]. apply add_range_outside. lia. }
    destruct (Z.ltb_spec e l) as [H2|H2]; simpl.
    { exists tr1, lz1. repeat split; try assumption.
      eapply lazy_ok_ext; [exact O1|]. apply add_range_outside. lia. }
    pose proof (lookup_lt_Some _ _ _ Z1) as Hlz.
    destruct ((l <=? s) && (e <=? r)) eqn:Hin.
    { apply andb_true_iff in Hin. destruct Hin as [H3 H4].
      apply Z.leb_le in H3, H4.
      rewrite (bind_ok _ _ _ _ _ (lazy_lazy_get n tr1 lz1 node 0 Hn Z1)).
      rewrite (bind_ok _ _ _ _ _ (lazy_lazy_set n tr1 lz1 node _ Hn Hlz)).
      assert (O2 : lazy_ok tr1 (<[Z.to_nat node := 0 + d]> lz1)
                     (add_range v l r d) node s e 0).
      { eapply lazy_ok_shift with (z := d) (zc := 0);
          [apply lazy_ok_add; eassumption|exact Z1| | |apply same_inside_refl].
        - apply list_lookup_insert_eq. lia.
        - intros k Hk Hs Hne. apply list_lookup_insert_ne. lia. }
      destruct (lazy_push_ok n _ _ _ _ _ _ O2)
        as (tr3 & lz3 & E3 & Lt3 & Ll3 & O3 & Z3 & Ft3 & Fl3).
      rewrite E3. exists tr3, lz3.
      rewrite length_insert in Ll3.
      repeat split; try assumption; try lia.
      - eapply same_outside_trans; eassumption.
      - eapply same_outside_trans; [exact Fl1|].
        eapply same_outside_trans; [|exact Fl3].
        apply same_outside_insert; [lia|apply sub_refl]. }
    assert (Hlt : s < e).
    { destruct (Z.leb_spec l s), (Z.leb_spec e r); simpl in Hin;
        try discriminate; lia. }
    destruct (lazy_ok_children _ _ _ _ _ _ O1 Z1 Hlt) as [C1 C2].
    destruct (depth_ok_step _ _ _ Hd Hlt) as [Hd1 Hd2].
    destruct (IH l r d _ _ _ n _ _ _ C1 Hd1)
      as (tr2 & lz2 & E2 & Lt2 & Ll2 & O2 & Z2 & Ft2 & Fl2).
    rewrite (bind_ok _ _ _ _ _ E2).
    assert (C2' : lazy_ok tr2 lz2 v (2 * node + 2) ((s + e) / 2 + 1) e 0)
      by (eapply lazy_ok_frame; [exact C2| |];
          apply outside_left_inside_right; assumption).
    destruct (IH l r d _ _ _ n _ _ _ C2' Hd2)
      as (tr3 & lz3 & E3 & Lt3 & Ll3 & O3 & Z3 & Ft3 & Fl3).
    rewrite (bind_ok _ _ _ _ _ E3).
    assert (O2' : lazy_ok tr3 lz3 (add_range v l r d)
                    (2 * node + 1) s ((s + e) / 2) 0)
      by (eapply lazy_ok_frame; [exact O2| |];
          apply outside_right_inside_left; assumption).
    assert (Z2' : lz3 !! Z.to_nat (2 * node + 1) = Some 0)
      by (rewrite (same_outside_at _ _ _ _ Fl3);
          [assumption|lia|apply not_sub_right_left; assumption]).
    assert (Zn : lz3 !! Z.to_nat node = Some 0)
      by (rewrite (same_outside_at _ _ _ _ Fl3), (same_outside_at _ _ _ _ Fl2);
          [assumption|lia|apply not_sub_parent; lia
          |lia|apply not_sub_parent; lia]).
    destruct (lazy_ok_lookup _ _ _ _ _ _ _ O1) as (a & z & Ha & _ & _).
    pose proof (lookup_lt_Some _ _ _ Ha) as Hlen.
    destruct (lazy_merge n tr3 lz3 (add_range v l r d) node s e)
      as (tr4 & E4 & Lt4 & O4 & Ft4); try assumption; try lia.
    rewrite E4; exists tr4, lz3.
    repeat split; try assumption; try lia.
    + eapply same_outside_trans; [exact Ft1|].
      eapply same_outside_trans; [apply same_outside_left; exact Ft2|].
      eapply same_outside_trans; [apply same_outside_right; exact Ft3|].
      exact Ft4.
    + eapply same_outside_trans; [exact Fl1|].
      eapply same_outside_trans; [apply same_outside_left; exact Fl2|].
      apply same_outside_right; exact Fl3.
Qed.

Lemma lazy_query_ok fuel : forall l r node s e n tr lz v,
  lazy_ok tr lz v node s e 0 -> depth_ok fuel (e - s + 1) ->
  exists tr' lz',
    LazySegmentTree._range_query_helper fuel l r node s e
      (LazySegmentTree.mk n tr lz)
      = Ok (zsum v (Z.max l s) (Z.min r e), LazySegmentTree.mk n tr' lz') /\
    length tr' = length tr /\ length lz' = length lz /\
    lazy_ok tr' lz' v node s e 0 /\
    same_outside node tr tr' /\ same_outside node lz lz'.
Proof.
  induction fuel as [|fuel IH]; intros l r node s e n tr lz v Hok Hd.
  - apply depth_ok_0 in Hd. apply lazy_ok_bounds in Hok. lia.
  - cbn [LazySegmentTree._range_query_helper].
    destruct (lazy_ok_bounds _ _ _ _ _ _ _ Hok) as [Hn Hse].
    destruct ((r <? s) || (e <? l)) eqn:Hout.
    { exists tr, lz. rewrite zsum_empty.
      - repeat split; auto using same_outside_refl.
      - apply orb_true_iff in Hout. rewrite !Z.ltb_lt in Hout. lia. }
    apply orb_false_iff in Hout. rewrite !Z.ltb_ge in Hout.
    destruct (lazy_push_ok n _ _ _ _ _ _ Hok)
      as (tr1 & lz1 & E1 & Lt1 & Ll1 & O1 & Z1 & Ft1 & Fl1).
    rewrite (bind_ok _ _ _ _ _ E1).
    destruct ((l <=? s) && (e <=? r)) eqn:Hin.
    { apply andb_true_iff in Hin. rewrite !Z.leb_le in Hin.
      rewrite (lazy_tree_get n tr1 lz1 node _ Hn (lazy_ok_pushed _ _ _ _ _ _ O1 Z1)).
      replace (Z.max l s) with s by lia. replace (Z.min r e) with e by lia.
      exists tr1, lz1. repeat split; assumption. }
    assert (Hlt : s < e).
    { destruct (Z.leb_spec l s), (Z.leb_spec e r); simpl in Hin;
        try discriminate; lia. }
    destruct (lazy_ok_children _ _ _ _ _ _ O1 Z1 Hlt) as [C1 C2].
    destruct (depth_ok_step _ _ _ Hd Hlt) as [Hd1 Hd2].
    destruct (IH l r _ _ _ n _ _ _ C1 Hd1)
      as (tr2 & lz2 & E2 & Lt2 & Ll2 & O2 & Ft2 & Fl2).
    rewrite (bind_ok _ _ _ _ _ E2).
    assert (C2' : lazy_ok tr2 lz2 v (2 * node + 2) ((s + e) / 2 + 1) e 0)
      by (eapply lazy_ok_frame; [exact C2| |];
          apply outside_left_inside_right; assumption).
    destruct (IH l r _ _ _ n _ _ _ C2' Hd2)
      as (tr3 & lz3 & E3 & Lt3 & Ll3 & O3 & Ft3 & Fl3).
    rewrite (bind_ok _ _ _ _ _ E3).
    assert (O2' : lazy_ok tr3 lz3 v (2 * node + 1) s ((s + e) / 2) 0)
      by (eapply lazy_ok_frame; [exact O2| |];
          apply outside_right_inside_left; assumption).
    unfold ret. rewrite (zsum_clip_split v l r s e Hlt).
    exists tr3, lz3. repeat split; try lia.
    + apply lazy_ok_rebuild; try assumption.
      * rewrite (same_outside_at _ _ _ _ Ft3), (same_outside_at _ _ _ _ Ft2);
          [apply (lazy_ok_pushed _ _ _ _ _ _ O1 Z1)|lia|apply not_sub_parent; lia
          |lia|apply not_sub_parent; lia].
      * rewrite (same_outside_at _ _ _ _ Fl3), (same_outside_at _ _ _ _ Fl2);
          [assumption|lia|apply not_sub_parent; lia
          |lia|apply not_sub_parent; lia].
    + eapply same_outside_trans; [exact Ft1|].
      eapply same_outside_trans; [apply same_outside_left; exact Ft2|].
      apply same_outside_right; exact Ft3.
    + eapply same_outside_trans; [exact Fl1|].
      eapply same_outside_trans; [apply same_outside_left; exact Fl2|].
      apply same_outside_right; exact Fl3.
Qed.

Lemma spec_query_ok fuel : forall l r node s e n tr lz v,
  lazy_ok tr lz v node s e 0 -> depth_ok fuel (e - s + 1) ->
  exists tr' lz',
    Spec.range_query_helper fuel l r node s e (LazySegmentTree.mk n tr lz)
      = Ok (zsum v (Z.max l s) (Z.min r e), LazySegmentTree.mk n tr' lz') /\
    length tr' = length tr /\ length lz' = length lz /\
    lazy_ok tr' lz' v node s e 0 /\
    same_outside node tr tr' /\ same_outside node lz lz'.
Proof.
  induction fuel as [|fuel IH]; intros l r node s e n tr lz v Hok Hd.
  - apply depth_ok_0 in Hd. apply lazy_ok_bounds in Hok. lia.
  - cbn [Spec.range_query_helper].
    destruct (lazy_ok_bounds _ _ _ _ _ _ _ Hok) as [Hn Hse].
    destruct (lazy_push_ok n _ _ _ _ _ _ Hok)
      as (tr1 & lz1 & E1 & Lt1 & Ll1 & O1 & Z1 & Ft1 & Fl1).
    rewrite (bind_ok _ _ _ _ _ E1).
    destruct ((r <? s) || (e <? l)) eqn:Hout.
    { exists tr1, lz1. rewrite zsum_empty.
      - repeat split; assumption.
      - apply orb_true_iff in Hout. rewrite !Z.ltb_lt in Hout. lia. }
    apply orb_false_iff in Hout. rewrite !Z.ltb_ge in Hout.
    destruct ((l <=? s) && (e <=? r)) eqn:Hin.
    { apply andb_true_iff in Hin. rewrite !Z.leb_le in Hin.
      rewrite (lazy_tree_get n tr1 lz1 node _ Hn (lazy_ok_pushed _ _ _ _ _ _ O1 Z1)).
      replace (Z.max l s) with s by lia. replace (Z.min r e) with e by lia.
      exists tr1, lz1. repeat split; assumption. }
    assert (Hlt : s < e).
    { destruct (Z.leb_spec l s), (Z.leb_spec e r); simpl in Hin;
        try discriminate; lia. }
    destruct (lazy_ok_children _ _ _ _ _ _ O1 Z1 Hlt) as [C1 C2].
    destruct (depth_ok_step _ _ _ Hd Hlt) as [Hd1 Hd2].
    destruct (IH l r _ _ _ n _ _ _ C1 Hd1)
      as (tr2 & lz2 & E2 & Lt2 & Ll2 & O2 & Ft2 & Fl2).
    rewrite (bind_ok _ _ _ _ _ E2).
    assert (C2' : lazy_ok tr2 lz2 v (2 * node + 2) ((s + e) / 2 + 1) e 0)
      by (eapply lazy_ok_frame; [exact C2| |];
          apply outside_left_inside_right; assumption).
    destruct (IH l r _ _ _ n _ _ _ C2' Hd2)
      as (tr3 & lz3 & E3 & Lt3 & Ll3 & O3 & Ft3 & Fl3).
    rewrite (bind_ok _ _ _ _ _ E3).
    assert (O2' : lazy_ok tr3 lz3 v (2 * node + 1) s ((s + e) / 2) 0)
      by (eapply lazy_ok_frame; [exact O2| |];
          apply outside_right_inside_left; assumption).
    unfold ret. rewrite (zsum_clip_split v l r s e Hlt).
    exists tr3, lz3. repeat split; try lia.
    + apply lazy_ok_rebuild; try assumption.
      * rewrite (same_outside_at _ _ _ _ Ft3), (same_outside_at _ _ _ _ Ft2);
          [apply (lazy_ok_pushed _ _ _ _ _ _ O1 Z1)|lia|apply not_sub_parent; lia
          |lia|apply not_sub_parent; lia].
      * rewrite (same_outside_at _ _ _ _ Fl3), (same_outside_at _ _ _ _ Fl2);
          [assumption|lia|apply not_sub_parent; lia
          |lia|apply not_sub_parent; lia].
    + eapply same_outside_trans; [exact Ft1|].
      eapply same_outside_trans; [apply same_outside_left; exact Ft2|].
      apply same_outside_right; exact Ft3.
    + eapply same_outside_trans; [exact Fl1|].
      eapply same_outside_trans; [apply same_outside_left; exact Fl2|].
      apply same_outside_right; exact Fl3.
Qed.

(** ** Sequences as lists *)

Lemma at_set_at vals j x i :
  0 <= i < Py.len vals -> at_ (set_at vals j x) i = upd (at_ vals) j x i.
Proof.
  intros Hi. pose proof (at_lookup vals i Hi) as Hl.
  unfold at_ at 1. unfold set_at, upd.
  destruct (Z.ltb_spec i 0); [lia|].
  rewrite list_lookup_imap, Hl. simpl. rewrite Z2Nat.id by lia. reflexivity.
Qed.

Lemma at_add_on vals l r d i :
  0 <= i < Py.len vals -> at_ (add_on vals l r d) i = add_range (at_ vals) l r d i.
Proof.
  intros Hi. pose proof (at_lookup vals i Hi) as Hl.
  unfold at_ at 1. unfold add_on, add_range.
  destruct (Z.ltb_spec i 0); [lia|].
  rewrite list_lookup_imap, Hl. simpl. rewrite Z2Nat.id by lia. reflexivity.
Qed.

Lemma len_set_at vals j x : Py.len (set_at vals j x) = Py.len vals.
Proof. unfold Py.len, set_at. rewrite length_imap. reflexivity. Qed.

Lemma len_add_on vals l r d : Py.len (add_on vals l r d) = Py.len vals.
Proof. unfold Py.len, add_on. rewrite length_imap. reflexivity. Qed.

Lemma len_pos (arr : list Z) : arr <> [] -> 1 <= Py.len arr.
Proof. destruct arr; [congruence|]. unfold Py.len. simpl. lia. Qed.

(** ** The eager tree, method by method *)

Lemma eager_init_inv arr fuel :
  arr <> [] -> Z.log2_up (Py.len arr) < Z.of_nat fuel ->
  exists st, SegmentTree.__init__ fuel arr = Ok st /\ EagerInv st arr.
Proof.
  intros Hne Hf. pose proof (len_pos arr Hne) as Hn.
  unfold SegmentTree.__init__.
  destruct (eager_build_ok fuel arr 0 0 (Py.len arr - 1) (Py.len arr)
              (Py.zeros (4 * Py.len arr)))
    as (tr & E & L & O & _).
  - replace (Py.len arr - 1 - 0 + 1) with (Py.len arr) by lia.
    apply depth_ok_log2; lia.
  - lia.
  - lia.
  - apply slot_ok_root; assumption.
  - unfold Py.zeros. apply length_replicate.
  - rewrite E. eexists; split; [reflexivity|].
    repeat split; simpl; assumption.
Qed.

Lemma eager_update_inv st vals idx x fuel :
  EagerInv st vals -> Z.log2_up (SegmentTree.n st) < Z.of_nat fuel ->
  exists st',
    SegmentTree.update fuel idx x st = Ok (tt, st') /\
    SegmentTree.n st' = SegmentTree.n st /\
    EagerInv st' (set_at vals (clamp 0 (SegmentTree.n st - 1) idx) x).
Proof.
  destruct st as [n tr]. unfold EagerInv, SegmentTree.update. simpl.
  intros (Hlen & Hn & Hok) Hf.
  destruct (eager_update_ok fuel idx x 0 0 (n - 1) n tr (at_ vals) Hok)
    as (tr' & E & L & O & _).
  { replace (n - 1 - 0 + 1) with n by lia. apply depth_ok_log2; lia. }
  rewrite E. eexists; split; [reflexivity|]. simpl.
  rewrite len_set_at. repeat split; try assumption.
  eapply eager_ok_ext; [exact O|].
  intros i Hi. symmetry. apply at_set_at. lia.
Qed.

Lemma eager_query_inv st vals l r fuel :
  EagerInv st vals -> Z.log2_up (SegmentTree.n st) < Z.of_nat fuel ->
  SegmentTree.query fuel l r st
    = Ok (zsum (at_ vals) (Z.max l 0) (Z.min r (SegmentTree.n st - 1)), st).
Proof.
  unfold EagerInv, SegmentTree.query.
  intros (Hlen & Hn & Hok) Hf.
  apply eager_query_ok; [assumption|].
  replace (SegmentTree.n st - 1 - 0 + 1) with (SegmentTree.n st) by lia.
  apply depth_ok_log2; lia.
Qed.

(** ** The lazy tree, method by method *)

(** [LazySegmentTree.build] is [SegmentTree.build] on the [tree] field. *)
Lemma lazy_build_eager fuel : forall arr node s e n tr lz,
  LazySegmentTree.build fuel arr node s e (LazySegmentTree.mk n tr lz) =
  match SegmentTree.build fuel arr node s e (SegmentTree.mk n tr) with
  | Ok (u, st) =>
      Ok (u, LazySegmentTree.mk (SegmentTree.n st) (SegmentTree.tree st) lz)
  | Raise ex => Raise ex
  end.
Proof.
  induction fuel as [|fuel IH]; intros arr node s e n tr lz; [reflexivity|].
  cbn [LazySegmentTree.build SegmentTree.build].
  destruct (s =? e).
  - unfold bind, lift, LazySegmentTree.tree_set, SegmentTree.tree_set. simpl.
    destruct (Py.getitem arr s); [|reflexivity]. simpl.
    destruct (Py.setitem tr node a); reflexivity.
  - unfold bind. rewrite IH.
    destruct (SegmentTree.build fuel arr (2 * node + 1) s ((s + e) / 2)
                (SegmentTree.mk n tr)) as [[u1 [n1 tr1]]|]; [|reflexivity].
    simpl. rewrite IH.
    destruct (SegmentTree.build fuel arr (2 * node + 2) ((s + e) / 2 + 1) e
                (SegmentTree.mk n1 tr1)) as [[u2 [n2 tr2]]|]; [|reflexivity].
    unfold LazySegmentTree.tree_get, SegmentTree.tree_get, lift,
      LazySegmentTree.tree_set, SegmentTree.tree_set. simpl.
    destruct (Py.getitem tr2 (2 * node + 1)); [|reflexivity]. simpl.
    destruct (Py.getitem tr2 (2 * node + 2)); [|reflexivity]. simpl.
    destruct (Py.setitem tr2 node (a + a0)); reflexivity.
Qed.

(** With nothing pending anywhere, an eager tree is a lazy tree. *)
Lemma eager_lazy_ok tr lz v node s e :
  eager_ok tr v node s e ->
  (forall i : nat, (i < length tr)%nat -> lz !! i = Some 0) ->
  lazy_ok tr lz v node s e 0.
Proof.
  induction 1 as [node s Hn Hl | node s e a b Hn Hse Ha Hb Hab O1 IH1 O2 IH2];
    intros Hz.
  - apply lazy_leaf with (v s) 0; try assumption; [|lia].
    apply Hz. eapply lookup_lt_Some; eassumption.
  - apply lazy_ok_rebuild; auto.
    + rewrite Hab. f_equal.
      pose proof (eager_ok_lookup _ _ _ _ _ O1).
      pose proof (eager_ok_lookup _ _ _ _ _ O2).
      pose proof (mid_bounds _ _ Hse).
      rewrite (zsum_split v s ((s + e) / 2) e) by lia. congruence.
    + apply Hz. eapply lookup_lt_Some; eassumption.
Qed.

Lemma lazy_init_inv arr fuel :
  arr <> [] -> Z.log2_up (Py.len arr) < Z.of_nat fuel ->
  exists st, LazySegmentTree.__init__ fuel arr = Ok st /\ LazyInv st arr.
Proof.
  intros Hne Hf. pose proof (len_pos arr Hne) as Hn.
  unfold LazySegmentTree.__init__. rewrite lazy_build_eager.
  destruct (eager_build_ok fuel arr 0 0 (Py.len arr - 1) (Py.len arr)
              (Py.zeros (4 * Py.len arr)))
    as (tr & E & L & O & _).
  - replace (Py.len arr - 1 - 0 + 1) with (Py.len arr) by lia.
    apply depth_ok_log2; lia.
  - lia.
  - lia.
  - apply slot_ok_root; assumption.
  - unfold Py.zeros. apply length_replicate.
  - rewrite E. eexists; split; [reflexivity|].
    repeat split; simpl; try assumption.
    apply eager_lazy_ok; [assumption|].
    intros i Hi. apply lookup_replicate_2.
    unfold Py.zeros in L. rewrite length_replicate in L. lia.
Qed.

Lemma lazy_update_inv st vals l r d fuel :
  LazyInv st vals -> Z.log2_up (LazySegmentTree.n st) < Z.of_nat fuel ->
  exists st',
    LazySegmentTree.range_update fuel l r d st = Ok (tt, st') /\
    LazySegmentTree.n st' = LazySegmentTree.n st /\
    LazyInv st' (add_on vals l r d).
Proof.
  destruct st as [n tr lz]. unfold LazyInv, LazySegmentTree.range_update. simpl.
  intros (Hlen & Hn & Hok) Hf.
  destruct (lazy_update_ok fuel l r d 0 0 (n - 1) n tr lz (at_ vals) Hok)
    as (tr' & lz' & E & _ & _ & O & _).
  { replace (n - 1 - 0 + 1) with n by lia. apply depth_ok_log2; lia. }
  rewrite E. eexists; split; [reflexivity|]. simpl.
  rewrite len_add_on. repeat split; try assumption.
  eapply lazy_ok_ext; [exact O|].
  intros i Hi. symmetry. apply at_add_on. lia.
Qed.

Lemma lazy_query_inv st vals l r fuel :
  LazyInv st vals -> Z.log2_up (LazySegmentTree.n st) < Z.of_nat fuel ->
  exists st',
    LazySegmentTree.range_query fuel l r st
      = Ok (zsum (at_ vals) (Z.max l 0) (Z.min r (LazySegmentTree.n st - 1)), st') /\
    LazySegmentTree.n st' = LazySegmentTree.n st /\
    LazyInv st' vals.
Proof.
  destruct st as [n tr lz]. unfold LazyInv, LazySegmentTree.range_query. simpl.
  intros (Hlen & Hn & Hok) Hf.
  destruct (lazy_query_ok fuel l r 0 0 (n - 1) n tr lz (at_ vals) Hok)
    as (tr' & lz' & E & _ & _ & O & _).
  { replace (n - 1 - 0 + 1) with n by lia. apply depth_ok_log2; lia. }
  rewrite E. eexists; split; [reflexivity|]. simpl. auto.
Qed.

Lemma spec_query_inv st vals l r fuel :
  LazyInv st vals -> Z.log2_up (LazySegmentTree.n st) < Z.of_nat fuel ->
  exists st',
    Spec.range_query fuel l r st
      = Ok (zsum (at_ vals) (Z.max l 0) (Z.min r (LazySegmentTree.n st - 1)), st') /\
    LazySegmentTree.n st' = LazySegmentTree.n st /\
    LazyInv st' vals.
Proof.
  destruct st as [n tr lz]. unfold LazyInv, Spec.range_query. simpl.
  intros (Hlen & Hn & Hok) Hf.
  destruct (spec_query_ok fuel l r 0 0 (n - 1) n tr lz (at_ vals) Hok)
    as (tr' & lz' & E & _ & _ & O & _).
  { replace (n - 1 - 0 + 1) with n by lia. apply depth_ok_log2; lia. }
  rewrite E. eexists; split; [reflexivity|]. simpl. auto.
Qed.

(** A query for the single index [i]. *)
Lemma zsum_point v i n :
  0 <= i < n -> zsum v (Z.max i 0) (Z.min i (n - 1)) = v i.
Proof.
  intros Hi. replace (Z.max i 0) with i by lia.
  replace (Z.min i (n - 1)) with i by lia. apply zsum_one.
Qed.

Lemma zsum_whole v n :
  1 <= n -> zsum v (Z.max 0 0) (Z.min (n - 1) (n - 1)) = zsum v 0 (n - 1).
Proof. intros Hn. f_equal; lia. Qed.

(** ** Every tree that a program can hold satisfies the invariant

    A tree is built by the constructor from a non-empty sequence and then
    only touched through its methods, with any arguments. *)

Lemma eager_run_inv fuel cs : forall st vals,
  EagerInv st vals -> Z.log2_up (SegmentTree.n st) < Z.of_nat fuel ->
  exists st' vals',
    eager_run fuel cs st = Ok (tt, st') /\
    SegmentTree.n st' = SegmentTree.n st /\ EagerInv st' vals'.
Proof.
  induction cs as [|c cs IH]; intros st vals Hinv Hf.
  - exists st, vals. auto.
  - cbn [eager_run]. destruct c as [idx val|l r]; cbn [eager_do].
    + destruct (eager_update_inv st vals idx val fuel Hinv Hf)
        as (st1 & E & Hn & Hinv1).
      rewrite (bind_ok _ _ _ _ _ E).
      destruct (IH st1 _ Hinv1 ltac:(rewrite Hn; exact Hf))
        as (st2 & vals2 & E2 & Hn2 & Hinv2).
      exists st2, vals2. split; [assumption|]. split; [congruence|assumption].
    + rewrite (bind_ok _ _ _ tt st)
        by (rewrite (bind_ok _ _ _ _ _ (eager_query_inv st vals l r fuel Hinv Hf));
            reflexivity).
      apply (IH st vals Hinv Hf).
Qed.

Lemma lazy_run_inv fuel cs : forall st vals,
  LazyInv st vals -> Z.log2_up (LazySegmentTree.n st) < Z.of_nat fuel ->
  exists st' vals',
    lazy_run fuel cs st = Ok (tt, st') /\
    LazySegmentTree.n st' = LazySegmentTree.n st /\ LazyInv st' vals'.
Proof.
  induction cs as [|c cs IH]; intros st vals Hinv Hf.
  - exists st, vals. auto.
  - cbn [lazy_run]. destruct c as [l r val|l r]; cbn [lazy_do].
    + destruct (lazy_update_inv st vals l r val fuel Hinv Hf)
        as (st1 & E & Hn & Hinv1).
      rewrite (bind_ok _ _ _ _ _ E).
      destruct (IH st1 _ Hinv1 ltac:(rewrite Hn; exact Hf))
        as (st2 & vals2 & E2 & Hn2 & Hinv2).
      exists st2, vals2. split; [assumption|]. split; [congruence|assumption].
    + destruct (lazy_query_inv st vals l r fuel Hinv Hf)
        as (st1 & E & Hn & Hinv1).
      rewrite (bind_ok _ _ _ tt st1)
        by (rewrite (bind_ok _ _ _ _ _ E); reflexivity).
      destruct (IH st1 _ Hinv1 ltac:(rewrite Hn; exact Hf))
        as (st2 & vals2 & E2 & Hn2 & Hinv2).
      exists st2, vals2. split; [assumption|]. split; [congruence|assumption].
Qed.

Lemma eager_reachable arr fuel cs :
  arr <> [] -> Z.log2_up (Py.len arr) < Z.of_nat fuel ->
  exists st st' vals,
    SegmentTree.__init__ fuel arr = Ok st /\
    eager_run fuel cs st = Ok (tt, st') /\ EagerInv st' vals.
Proof.
  intros Hne Hf.
  destruct (eager_init_inv arr fuel Hne Hf) as (st & E & Hinv).
  pose proof Hinv as (Hlen & _).
  destruct (eager_run_inv fuel cs st arr Hinv ltac:(rewrite Hlen; exact Hf))
    as (st' & vals & R & _ & Hinv').
  eauto 6.
Qed.

Lemma lazy_reachable arr fuel cs :
  arr <> [] -> Z.log2_up (Py.len arr) < Z.of_nat fuel ->
  exists st st' vals,
    LazySegmentTree.__init__ fuel arr = Ok st /\
    lazy_run fuel cs st = Ok (tt, st') /\ LazyInv st' vals.
Proof.
  intros Hne Hf.
  destruct (lazy_init_inv arr fuel Hne Hf) as (st & E & Hinv).
  pose proof Hinv as (Hlen & _).
  destruct (lazy_run_inv fuel cs st arr Hinv ltac:(rewrite Hlen; exact Hf))
    as (st' & vals & R & _ & Hinv').
  eauto 6.
Qed.

(** ** The sample trees satisfy the invariants *)

Lemma demo_eager_inv : EagerInv demo_eager demo_arr.
Proof.
  destruct (eager_init_inv demo_arr 4) as (st & E & I);
    [discriminate | vm_compute; reflexivity |].
  vm_compute in E. injection E as <-. exact I.
Qed.

Lemma demo_lazy_inv : LazyInv demo_lazy demo_vals.
Proof.
  destruct (lazy_init_inv [1; 2; 3; 4; 5] 4) as (st0 & E0 & I0);
    [discriminate | vm_compute; reflexivity |].
  vm_compute in E0. injection E0 as <-.
  destruct (lazy_update_inv _ _ 1 3 2 4 I0) as (st1 & E1 & _ & I1);
    [vm_compute; reflexivity |].
  vm_compute in E1. injection E1 as <-.
  destruct (lazy_update_inv _ _ 0 4 7 4 I1) as (st2 & E2 & _ & I2);
    [vm_compute; reflexivity |].
  vm_compute in E2. injection E2 as <-.
  exact I2.
Qed.

(** ** The invariant of the eager tree, node by node *)

Lemma covers_bounds n i s e : 1 <= n -> covers n i s e -> 0 <= i /\ s <= e.
Proof.
  intros Hn. induction 1 as [|i s e _ IH Hse|i s e _ IH Hse].
  - lia.
  - pose proof (mid_bounds _ _ Hse). lia.
  - pose proof (mid_bounds _ _ Hse). lia.
Qed.

Lemma covers_eager_ok tr v n i s e :
  eager_ok tr v 0 0 (n - 1) -> covers n i s e -> eager_ok tr v i s e.
Proof.
  intros Hroot. induction 1 as [|i s e _ IH Hse|i s e _ IH Hse].
  - assumption.
  - inversion IH; subst; [lia|assumption].
  - inversion IH; subst; [lia|assumption].
Qed.

Lemma EagerInv_invariant st vals : EagerInv st vals -> eager_invariant st vals.
Proof.
  intros (Hlen & Hn & Hok). split; [assumption|]. split; [assumption|].
  intros i s e Hc.
  pose proof (covers_eager_ok _ _ _ _ _ _ Hok Hc) as Hi.
  inversion Hi as [i' s' Hi0 Hl | i' s' e' a b Hi0 Hse Ha Hb Hab _ _]; subst.
  - split; [lia|]. intros _. assumption.
  - split; [|lia]. intros _. exists a, b. auto.
Qed.

Lemma invariant_EagerInv st vals : eager_invariant st vals -> EagerInv st vals.
Proof.
  intros (Hlen & Hn & Hall). split; [assumption|]. split; [assumption|].
  assert (H : forall (k : nat) i s e,
             covers (SegmentTree.n st) i s e -> e - s < Z.of_nat k ->
             eager_ok (SegmentTree.tree st) (at_ vals) i s e).
  { induction k as [|k IH]; intros i s e Hc Hk;
      destruct (covers_bounds _ _ _ _ Hn Hc) as [Hi Hse]; [lia|].
    destruct (Hall i s e Hc) as [Hnode Hleaf].
    destruct (Z.eq_dec s e) as [->|Hne].
    - apply eager_leaf; auto.
    - assert (Hlt : s < e) by lia.
      destruct (Hnode Hlt) as (a & b & Ha & Hb & Hab).
      pose proof (mid_bounds _ _ Hlt).
      apply eager_node with a b; try assumption.
      + apply IH; [apply covers_left; assumption|lia].
      + apply IH; [apply covers_right; assumption|lia]. }
  apply (H (Z.to_nat (SegmentTree.n st))); [apply covers_root|lia].
Qed.

(* ================================================================= *)
(** * The claims *)

(** C1. In a LazySegmentTree of [n >= 1] elements, for [0 <= l <= r < n],
    [range_update(l, r, d)] runs, and afterwards the value observed by
    [range_query(i, i)] is the value observed before plus [d] for every
    index [i] with [l <= i <= r], and the value observed before for every
    other index. *)
Theorem range_update_pointwise st vals l r d fuel :
  LazyInv st vals ->
  0 <= l <= r /\ r < LazySegmentTree.n st ->
  Z.log2_up (LazySegmentTree.n st) < Z.of_nat fuel ->
  exists st',
    LazySegmentTree.range_update fuel l r d st = Ok (tt, st') /\
    forall i,
      exists x s1 s2,
        LazySegmentTree.range_query fuel i i st = Ok (x, s1) /\
        LazySegmentTree.range_query fuel i i st'
          = Ok ((if (l <=? i) && (i <=? r) then x + d else x), s2).
Proof.
  intros Hinv Hlr Hf.
  destruct (lazy_update_inv st vals l r d fuel Hinv Hf) as (st' & E & Hn & Hinv').
  exists st'. split; [assumption|]. intros i.
  destruct (lazy_query_inv st vals i i fuel Hinv Hf) as (s1 & Q1 & _ & _).
  destruct (lazy_query_inv st' _ i i fuel Hinv' ltac:(rewrite Hn; exact Hf))
    as (s2 & Q2 & _ & _).
  rewrite Hn in Q2.
  eexists; exists s1, s2. split; [exact Q1|].
  rewrite Q2. do 2 f_equal.
  destruct (Z_lt_dec i 0) as [Hi|Hi];
    [|destruct (Z_le_dec (LazySegmentTree.n st) i) as [Hi'|Hi']].
  - rewrite !zsum_empty by lia.
    destruct (Z.leb_spec l i); [lia|reflexivity].
  - rewrite !zsum_empty by lia.
    destruct (Z.leb_spec l i), (Z.leb_spec i r); simpl; try reflexivity; lia.
  - rewrite !zsum_point by lia.
    apply at_add_on. destruct Hinv as (<- & _). lia.
Qed.

Lemma range_update_pointwise_witness :
  exists st',
    LazySegmentTree.range_update 4 1 3 10 demo_lazy = Ok (tt, st') /\
    forall i,
      exists x s1 s2,
        LazySegmentTree.range_query 4 i i demo_lazy = Ok (x, s1) /\
        LazySegmentTree.range_query 4 i i st'
          = Ok ((if (1 <=? i) && (i <=? 3) then x + 10 else x), s2).
Proof.
  apply (range_update_pointwise demo_lazy demo_vals 1 3 10 4).
  - exact demo_lazy_inv.
  - simpl. lia.
  - vm_compute. reflexivity.
Defined.

(** C2. For a non-empty sequence [v] of length [n], right after
    construction the query of the full range [0, n-1] returns [sum(v)]:
    [query(0, n-1)] on [SegmentTree(v)] and [range_query(0, n-1)] on
    [LazySegmentTree(v)]. *)
Theorem build_then_full_query v fuel :
  v <> [] ->
  Z.log2_up (Py.len v) < Z.of_nat fuel ->
  (exists st,
     SegmentTree.__init__ fuel v = Ok st /\
     SegmentTree.query fuel 0 (Py.len v - 1) st = Ok (Py.sum v, st)) /\
  (exists st st',
     LazySegmentTree.__init__ fuel v = Ok st /\
     LazySegmentTree.range_query fuel 0 (Py.len v - 1) st = Ok (Py.sum v, st')).
Proof.
  intros Hne Hf. pose proof (len_pos v Hne) as Hn. split.
  - destruct (eager_init_inv v fuel Hne Hf) as (st & E & Hinv).
    exists st. split; [assumption|].
    pose proof Hinv as (Hlen & _).
    rewrite (eager_query_inv st v 0 (Py.len v - 1) fuel Hinv)
      by (rewrite Hlen; exact Hf).
    rewrite Hlen, zsum_whole, zsum_all by assumption. reflexivity.
  - destruct (lazy_init_inv v fuel Hne Hf) as (st & E & Hinv).
    pose proof Hinv as (Hlen & _).
    destruct (lazy_query_inv st v 0 (Py.len v - 1) fuel Hinv)
      as (st' & Q & _ & _); [rewrite Hlen; exact Hf|].
    exists st, st'. split; [assumption|].
    rewrite Q, Hlen, zsum_whole, zsum_all by assumption. reflexivity.
Qed.

Lemma build_then_full_query_witness :
  (exists st,
     SegmentTree.__init__ 4 demo_arr = Ok st /\
     SegmentTree.query 4 0 (Py.len demo_arr - 1) st = Ok (Py.sum demo_arr, st)) /\
  (exists st st',
     LazySegmentTree.__init__ 4 demo_arr = Ok st /\
     LazySegmentTree.range_query 4 0 (Py.len demo_arr - 1) st
       = Ok (Py.sum demo_arr, st')).
Proof.
  apply (build_then_full_query demo_arr 4).
  - discriminate.
  - vm_compute. reflexivity.
Defined.

(** C3. In a SegmentTree of [n >= 1] elements, for [0 <= idx < n] and any
    [x], [update(idx, x)] runs, and afterwards [query(idx, idx)] returns
    [x], [query(0, n-1)] returns the sum of the current leaf values (the
    former ones with [x] at [idx]), and [query(i, i)] returns what it
    returned before for every [i <> idx]. *)
Theorem update_then_query st vals idx x fuel :
  EagerInv st vals ->
  0 <= idx < SegmentTree.n st ->
  Z.log2_up (SegmentTree.n st) < Z.of_nat fuel ->
  exists st',
    SegmentTree.update fuel idx x st = Ok (tt, st') /\
    EagerInv st' (set_at vals idx x) /\
    SegmentTree.query fuel idx idx st' = Ok (x, st') /\
    SegmentTree.query fuel 0 (SegmentTree.n st - 1) st'
      = Ok (Py.sum (set_at vals idx x), st') /\
    forall i, i <> idx ->
      exists y,
        SegmentTree.query fuel i i st = Ok (y, st) /\
        SegmentTree.query fuel i i st' = Ok (y, st').
Proof.
  intros Hinv Hidx Hf.
  destruct (eager_update_inv st vals idx x fuel Hinv Hf) as (st' & E & Hn & Hinv').
  replace (clamp 0 (SegmentTree.n st - 1) idx) with idx in Hinv'
    by (unfold clamp; lia).
  pose proof Hinv as (Hlen & Hn1 & _).
  assert (Hf' : Z.log2_up (SegmentTree.n st') < Z.of_nat fuel)
    by (rewrite Hn; exact Hf).
  exists st'. split; [assumption|]. split; [assumption|].
  split; [|split].
  - rewrite (eager_query_inv st' _ idx idx fuel Hinv' Hf').
    rewrite Hn, zsum_point, at_set_at by lia.
    unfold upd. rewrite Z.eqb_refl. reflexivity.
  - rewrite (eager_query_inv st' _ 0 _ fuel Hinv' Hf').
    rewrite Hn, zsum_whole by assumption.
    rewrite <- (len_set_at vals idx x) in Hlen.
    rewrite Hlen, zsum_all. reflexivity.
  - intros i Hi. eexists. split.
    + apply (eager_query_inv st vals i i fuel Hinv Hf).
    + rewrite (eager_query_inv st' _ i i fuel Hinv' Hf'), Hn.
      do 2 f_equal. apply zsum_ext. intros j Hj.
      rewrite at_set_at by lia. unfold upd.
      destruct (Z.eqb_spec j idx); [lia|reflexivity].
Qed.

Lemma update_then_query_witness :
  exists st',
    SegmentTree.update 4 1 10 demo_eager = Ok (tt, st') /\
    EagerInv st' (set_at demo_arr 1 10) /\
    SegmentTree.query 4 1 1 st' = Ok (10, st') /\
    SegmentTree.query 4 0 (SegmentTree.n demo_eager - 1) st'
      = Ok (Py.sum (set_at demo_arr 1 10), st') /\
    forall i, i <> 1 ->
      exists y,
        SegmentTree.query 4 i i demo_eager = Ok (y, demo_eager) /\
        SegmentTree.query 4 i i st' = Ok (y, st').
Proof.
  apply (update_then_query demo_eager demo_arr 1 10 4).
  - exact demo_eager_inv.
  - simpl. lia.
  - vm_compute. reflexivity.
Defined.

(** C4. The invariant of the eager tree (every internal node [i] covering
    [start, end] has [tree[i] = tree[2i+1] + tree[2i+2]], every leaf
    covering the single index [k] holds the current value at [k]) holds
    after construction and is preserved by every [update(idx, val)] with
    [0 <= idx < n]. *)
Theorem eager_invariant_kept arr fuel st vals idx val :
  (arr <> [] -> Z.log2_up (Py.len arr) < Z.of_nat fuel ->
   exists st0, SegmentTree.__init__ fuel arr = Ok st0 /\ eager_invariant st0 arr) /\
  (eager_invariant st vals -> 0 <= idx < SegmentTree.n st ->
   Z.log2_up (SegmentTree.n st) < Z.of_nat fuel ->
   exists st',
     SegmentTree.update fuel idx val st = Ok (tt, st') /\
     eager_invariant st' (set_at vals idx val)).
Proof.
  split.
  - intros Hne Hf.
    destruct (eager_init_inv arr fuel Hne Hf) as (st0 & E & Hinv).
    exists st0. auto using EagerInv_invariant.
  - intros Hinv Hidx Hf. apply invariant_EagerInv in Hinv.
    destruct (eager_update_inv st vals idx val fuel Hinv Hf)
      as (st' & E & Hn & Hinv').
    replace (clamp 0 (SegmentTree.n st - 1) idx) with idx in Hinv'
      by (unfold clamp; lia).
    exists st'. auto using EagerInv_invariant.
Qed.

Lemma eager_invariant_kept_witness :
  (exists st0,
     SegmentTree.__init__ 4 demo_arr = Ok st0 /\ eager_invariant st0 demo_arr) /\
  (exists st',
     SegmentTree.update 4 1 10 demo_eager = Ok (tt, st') /\
     eager_invariant st' (set_at demo_arr 1 10)).
Proof.
  destruct (eager_invariant_kept demo_arr 4 demo_eager demo_arr 1 10)
    as [Hinit Hupd].
  split.
  - apply Hinit; [discriminate | vm_compute; reflexivity].
  - apply Hupd.
    + apply EagerInv_invariant, demo_eager_inv.
    + simpl. lia.
    + vm_compute. reflexivity.
Defined.

(** C5. In a LazySegmentTree, for valid ranges [l1, r1] and [l2, r2],
    [range_update(l1, r1, d1)] followed by [range_update(l2, r2, d2)]
    raises the value observed by [range_query(i, i)] by exactly
    [d1 + d2], relative to the state before either update, for every
    index [i] lying in both ranges. *)
Theorem overlapping_updates_add st vals l1 r1 d1 l2 r2 d2 fuel :
  LazyInv st vals ->
  0 <= l1 <= r1 /\ r1 < LazySegmentTree.n st ->
  0 <= l2 <= r2 /\ r2 < LazySegmentTree.n st ->
  Z.log2_up (LazySegmentTree.n st) < Z.of_nat fuel ->
  exists st1 st2,
    LazySegmentTree.range_update fuel l1 r1 d1 st = Ok (tt, st1) /\
    LazySegmentTree.range_update fuel l2 r2 d2 st1 = Ok (tt, st2) /\
    forall i, l1 <= i <= r1 -> l2 <= i <= r2 ->
      exists x s s',
        LazySegmentTree.range_query fuel i i st = Ok (x, s) /\
        LazySegmentTree.range_query fuel i i st2 = Ok (x + (d1 + d2), s').
Proof.
  intros Hinv H1 H2 Hf.
  pose proof Hinv as (Hlen & _).
  destruct (lazy_update_inv st vals l1 r1 d1 fuel Hinv Hf)
    as (st1 & E1 & Hn1 & Hinv1).
  assert (Hf1 : Z.log2_up (LazySegmentTree.n st1) < Z.of_nat fuel)
    by (rewrite Hn1; exact Hf).
  destruct (lazy_update_inv st1 _ l2 r2 d2 fuel Hinv1 Hf1)
    as (st2 & E2 & Hn2 & Hinv2).
  assert (Hf2 : Z.log2_up (LazySegmentTree.n st2) < Z.of_nat fuel)
    by (rewrite Hn2; exact Hf1).
  exists st1, st2. split; [assumption|]. split; [assumption|].
  intros i Hi1 Hi2.
  destruct (lazy_query_inv st vals i i fuel Hinv Hf) as (s & Q & _ & _).
  destruct (lazy_query_inv st2 _ i i fuel Hinv2 Hf2) as (s' & Q' & _ & _).
  rewrite zsum_point in Q by lia.
  rewrite Hn2, Hn1, zsum_point in Q' by lia.
  rewrite at_add_on in Q' by (rewrite len_add_on; lia).
  unfold add_range at 1 in Q'. rewrite !at_add_on in Q' by lia.
  exists (at_ vals i), s, s'. split; [assumption|].
  rewrite Q'. unfold add_range.
  destruct (Z.leb_spec l1 i), (Z.leb_spec i r1),
    (Z.leb_spec l2 i), (Z.leb_spec i r2); simpl; try lia.
  do 2 f_equal. lia.
Qed.

Lemma overlapping_updates_add_witness :
  exists st1 st2,
    LazySegmentTree.range_update 4 0 2 5 demo_lazy = Ok (tt, st1) /\
    LazySegmentTree.range_update 4 1 4 (-3) st1 = Ok (tt, st2) /\
    forall i, 0 <= i <= 2 -> 1 <= i <= 4 ->
      exists x s s',
        LazySegmentTree.range_query 4 i i demo_lazy = Ok (x, s) /\
        LazySegmentTree.range_query 4 i i st2 = Ok (x + (5 + -3), s').
Proof.
  apply (overlapping_updates_add demo_lazy demo_vals 0 2 5 1 4 (-3) 4).
  - exact demo_lazy_inv.
  - simpl. lia.
  - simpl. lia.
  - vm_compute. reflexivity.
Defined.

Lemma lazy_queries_same fuel l r vals (k : nat) : forall st,
  LazyInv st vals -> Z.log2_up (LazySegmentTree.n st) < Z.of_nat fuel ->
  exists st',
    lazy_queries fuel l r k st
      = Ok (replicate k (zsum (at_ vals) (Z.max l 0)
                           (Z.min r (LazySegmentTree.n st - 1))), st') /\
    LazySegmentTree.n st' = LazySegmentTree.n st /\ LazyInv st' vals.
Proof.
  induction k as [|k IH]; intros st Hinv Hf.
  - exists st. auto.
  - cbn [lazy_queries replicate].
    destruct (lazy_query_inv st vals l r fuel Hinv Hf) as (st1 & Q & Hn & Hinv1).
    rewrite (bind_ok _ _ _ _ _ Q).
    destruct (IH st1 Hinv1 ltac:(rewrite Hn; exact Hf)) as (st2 & Qs & Hn2 & Hinv2).
    rewrite (bind_ok _ _ _ _ _ Qs). rewrite Hn.
    exists st2. split; [reflexivity|]. split; [congruence|assumption].
Qed.

Lemma eager_queries_same fuel l r vals st (k : nat) :
  EagerInv st vals -> Z.log2_up (SegmentTree.n st) < Z.of_nat fuel ->
  eager_queries fuel l r k st
    = Ok (replicate k (zsum (at_ vals) (Z.max l 0)
                         (Z.min r (SegmentTree.n st - 1))), st).
Proof.
  intros Hinv Hf. induction k as [|k IH]; [reflexivity|].
  cbn [eager_queries replicate].
  rewrite (bind_ok _ _ _ _ _ (eager_query_inv st vals l r fuel Hinv Hf)).
  rewrite (bind_ok _ _ _ _ _ IH). reflexivity.
Qed.

(** C6. For a valid range [l, r], any number of [range_query(l, r)] calls
    in a row on a LazySegmentTree, with no update in between, all return
    the same integer: the pushes made by one query do not change the
    result of the next.  Likewise for repeated [SegmentTree.query]. *)
Theorem repeated_queries_agree lst lvals est evals l r fuel :
  (LazyInv lst lvals ->
   0 <= l <= r /\ r < LazySegmentTree.n lst ->
   Z.log2_up (LazySegmentTree.n lst) < Z.of_nat fuel ->
   exists x, forall k : nat,
     exists st', lazy_queries fuel l r k lst = Ok (replicate k x, st')) /\
  (EagerInv est evals ->
   0 <= l <= r /\ r < SegmentTree.n est ->
   Z.log2_up (SegmentTree.n est) < Z.of_nat fuel ->
   exists x, forall k : nat,
     eager_queries fuel l r k est = Ok (replicate k x, est)).
Proof.
  split.
  - intros Hinv _ Hf. eexists. intros k.
    destruct (lazy_queries_same fuel l r lvals k lst Hinv Hf) as (st' & Q & _).
    exists st'. exact Q.
  - intros Hinv _ Hf. eexists. intros k.
    apply (eager_queries_same fuel l r evals est k Hinv Hf).
Qed.

Lemma repeated_queries_agree_witness :
  (exists x, forall k : nat,
     exists st', lazy_queries 4 1 3 k demo_lazy = Ok (replicate k x, st')) /\
  (exists x, forall k : nat,
     eager_queries 4 1 3 k demo_eager = Ok (replicate k x, demo_eager)).
Proof.
  destruct (repeated_queries_agree demo_lazy demo_vals demo_eager demo_arr 1 3 4)
    as [Hl He].
  split.
  - apply Hl; [exact demo_lazy_inv | simpl; lia | vm_compute; reflexivity].
  - apply He; [exact demo_eager_inv | simpl; lia | vm_compute; reflexivity].
Defined.

(** C7, as stated, fails: on the tree [LazySegmentTree([1, 2])] after
    [range_update(0, 1, 5)], the query [range_query(0, 0)] of the source
    and the push-first query of section 4.5 end in different states (the
    source returns 0 for the right leaf without pushing its pending 5). *)
Lemma push_first_differs :
  ~ (forall st vals l r fuel,
       LazyInv st vals ->
       0 <= l <= r /\ r < LazySegmentTree.n st ->
       Z.log2_up (LazySegmentTree.n st) < Z.of_nat fuel ->
       LazySegmentTree.range_query fuel l r st = Spec.range_query fuel l r st).
Proof.
  intros H.
  destruct (lazy_init_inv [1; 2] 3) as (st0 & E0 & I0);
    [discriminate | vm_compute; reflexivity |].
  vm_compute in E0. injection E0 as <-.
  destruct (lazy_update_inv _ _ 0 1 5 3 I0) as (st1 & E1 & _ & I1);
    [vm_compute; reflexivity |].
  vm_compute in E1. injection E1 as <-.
  assert (Hq := H _ _ 0 0 3%nat I1 ltac:(simpl; lia) ltac:(vm_compute; reflexivity)).
  vm_compute in Hq. discriminate Hq.
Qed.

(** C7, amended.  A visited node that is entirely outside the query range
    returns 0 without pushing; every other visited node runs [_push]
    before the inside / partial decision (first equation).  On every
    lazy tree the source's [range_query] and the push-first query of
    section 4.5 both run and return the same value, and the trees they
    leave represent the same sequence, though the arrays may differ. *)
Theorem range_query_vs_push_first st vals l r fuel :
  LazyInv st vals ->
  0 <= l <= r /\ r < LazySegmentTree.n st ->
  Z.log2_up (LazySegmentTree.n st) < Z.of_nat fuel ->
  (forall f node s e,
     LazySegmentTree._range_query_helper (S f) l r node s e =
     if (r <? s) || (e <? l) then ret 0
     else
       do! LazySegmentTree._push node s e in
       if (l <=? s) && (e <=? r) then LazySegmentTree.tree_get node
       else
         let! left_sum :=
           LazySegmentTree._range_query_helper f l r (2 * node + 1)
             s ((s + e) / 2) in
         let! right_sum :=
           LazySegmentTree._range_query_helper f l r (2 * node + 2)
             ((s + e) / 2 + 1) e in
         ret (left_sum + right_sum)) /\
  exists x st1 st2,
    LazySegmentTree.range_query fuel l r st = Ok (x, st1) /\
    Spec.range_query fuel l r st = Ok (x, st2) /\
    LazyInv st1 vals /\ LazyInv st2 vals.
Proof.
  intros Hinv _ Hf. split; [reflexivity|].
  destruct (lazy_query_inv st vals l r fuel Hinv Hf) as (st1 & Q1 & _ & I1).
  destruct (spec_query_inv st vals l r fuel Hinv Hf) as (st2 & Q2 & _ & I2).
  eauto 10.
Qed.

Lemma range_query_vs_push_first_witness :
  exists x st1 st2,
    LazySegmentTree.range_query 4 0 1 demo_lazy = Ok (x, st1) /\
    Spec.range_query 4 0 1 demo_lazy = Ok (x, st2) /\
    LazyInv st1 demo_vals /\ LazyInv st2 demo_vals.
Proof.
  apply (range_query_vs_push_first demo_lazy demo_vals 0 1 4).
  - exact demo_lazy_inv.
  - simpl. lia.
  - vm_compute. reflexivity.
Defined.

(** C8, as stated, fails: on the sample trees (6 and 5 elements) an
    inverted query, an update at index -1, a range update reaching past
    the end and a range query starting below 0 all complete. *)
Lemma out_of_bounds_completes :
  SegmentTree.query 4 4 2 demo_eager = Ok (0, demo_eager) /\
  (exists st', SegmentTree.update 4 (-1) 100 demo_eager = Ok (tt, st')) /\
  (exists st', LazySegmentTree.range_update 4 3 9 1 demo_lazy = Ok (tt, st')) /\
  (exists st', LazySegmentTree.range_query 4 (-5) 1 demo_lazy = Ok (19, st')).
Proof.
  split; [vm_compute; reflexivity|].
  repeat split; eexists; vm_compute; reflexivity.
Qed.

(** C8, amended.  On a tree of size [n >= 1], a call with an
    out-of-bounds index or range raises nothing and completes: [query]
    and [range_query] return the sum over the part of [l, r] that lies in
    [0, n-1] (0 when there is none), [update(idx, x)] overwrites the end
    leaf nearest to [idx], and [range_update] adds [d] on the part of
    [l, r] that lies in [0, n-1]. *)
Theorem out_of_bounds_calls est evals lst lvals idx x l r d fuel :
  (EagerInv est evals ->
   Z.log2_up (SegmentTree.n est) < Z.of_nat fuel ->
   (idx < 0 \/ SegmentTree.n est <= idx ->
    exists st',
      SegmentTree.update fuel idx x est = Ok (tt, st') /\
      EagerInv st'
        (set_at evals (if idx <? 0 then 0 else SegmentTree.n est - 1) x)) /\
   (l < 0 \/ SegmentTree.n est <= r \/ r < l ->
    SegmentTree.query fuel l r est
      = Ok (zsum (at_ evals) (Z.max l 0) (Z.min r (SegmentTree.n est - 1)),
            est))) /\
  (LazyInv lst lvals ->
   Z.log2_up (LazySegmentTree.n lst) < Z.of_nat fuel ->
   l < 0 \/ LazySegmentTree.n lst <= r \/ r < l ->
   (exists st',
      LazySegmentTree.range_update fuel l r d lst = Ok (tt, st') /\
      LazyInv st' (add_on lvals l r d)) /\
   (exists st',
      LazySegmentTree.range_query fuel l r lst
        = Ok (zsum (at_ lvals) (Z.max l 0)
                (Z.min r (LazySegmentTree.n lst - 1)), st') /\
      LazyInv st' lvals)).
Proof.
  split.
  - intros Hinv Hf. split.
    + intros Hidx.
      destruct (eager_update_inv est evals idx x fuel Hinv Hf)
        as (st' & E & _ & Hinv').
      exists st'. split; [assumption|].
      destruct Hinv as (_ & Hn & _).
      replace (if idx <? 0 then 0 else SegmentTree.n est - 1)
        with (clamp 0 (SegmentTree.n est - 1) idx); [assumption|].
      unfold clamp. destruct (Z.ltb_spec idx 0); lia.
    + intros _. apply eager_query_inv; assumption.
  - intros Hinv Hf _. split.
    + destruct (lazy_update_inv lst lvals l r d fuel Hinv Hf)
        as (st' & E & _ & Hinv').
      eauto.
    + destruct (lazy_query_inv lst lvals l r fuel Hinv Hf)
        as (st' & E & _ & Hinv').
      eauto.
Qed.

Lemma out_of_bounds_calls_witness :
  ((exists st',
      SegmentTree.update 4 7 100 demo_eager = Ok (tt, st') /\
      EagerInv st'
        (set_at demo_arr (if 7 <? 0 then 0 else SegmentTree.n demo_eager - 1)
           100)) /\
   SegmentTree.query 4 (-2) 9 demo_eager
     = Ok (zsum (at_ demo_arr) (Z.max (-2) 0)
             (Z.min 9 (SegmentTree.n demo_eager - 1)), demo_eager)) /\
  ((exists st',
      LazySegmentTree.range_update 4 (-2) 9 1 demo_lazy = Ok (tt, st') /\
      LazyInv st' (add_on demo_vals (-2) 9 1)) /\
   (exists st',
      LazySegmentTree.range_query 4 (-2) 9 demo_lazy
        = Ok (zsum (at_ demo_vals) (Z.max (-2) 0)
                (Z.min 9 (LazySegmentTree.n demo_lazy - 1)), st') /\
      LazyInv st' demo_vals)).
Proof.
  destruct (out_of_bounds_calls demo_eager demo_arr demo_lazy demo_vals
              7 100 (-2) 9 1 4) as [He Hl].
  split.
  - destruct (He demo_eager_inv ltac:(vm_compute; reflexivity)) as [Hu Hq].
    split; [apply Hu; simpl; lia | apply Hq; lia].
  - apply Hl; [exact demo_lazy_inv | vm_compute; reflexivity | lia].
Defined.

Lemma eager_build_empty fuel : forall node st,
  SegmentTree.build fuel [] node 0 (-1) st = Raise RecursionError.
Proof.
  induction fuel as [|fuel IH]; intros node st; [reflexivity|].
  cbn [SegmentTree.build]. change (0 =? -1) with false. cbv iota.
  apply bind_raise. apply IH.
Qed.

(** C9, as stated, fails: constructing either tree from the empty
    sequence does not end in [InvalidSize]. *)
Lemma empty_not_invalid_size :
  SegmentTree.__init__ 1000 [] <> Raise InvalidSize /\
  LazySegmentTree.__init__ 1000 [] <> Raise InvalidSize.
Proof.
  unfold SegmentTree.__init__, LazySegmentTree.__init__.
  rewrite lazy_build_eager. change (Py.len [] - 1) with (-1).
  rewrite !eager_build_empty. split; discriminate.
Qed.

(** C9, amended.  Constructing a SegmentTree or a LazySegmentTree from
    the empty sequence fails, whatever the recursion limit, with
    [RecursionError]: [build] on the segment [0, -1] calls itself on the
    same segment and never reaches a leaf. *)
Theorem empty_build_recursion_error fuel :
  SegmentTree.__init__ fuel [] = Raise RecursionError /\
  LazySegmentTree.__init__ fuel [] = Raise RecursionError.
Proof.
  unfold SegmentTree.__init__, LazySegmentTree.__init__.
  rewrite lazy_build_eager. change (Py.len [] - 1) with (-1).
  rewrite !eager_build_empty. split; reflexivity.
Qed.

(** C10, as stated, fails: on the sample lazy tree (5 elements, 7 pending
    at nodes 1 and 2) the inverted query [range_query(1, 0)] returns 0 but
    pushes the pending amount of node 1 down, so the arrays change. *)
Lemma inverted_query_pushes :
  ~ (forall st vals l r fuel,
       LazyInv st vals ->
       r < l \/ r < 0 \/ LazySegmentTree.n st - 1 < l ->
       Z.log2_up (LazySegmentTree.n st) < Z.of_nat fuel ->
       LazySegmentTree.range_query fuel l r st = Ok (0, st)).
Proof.
  intros H.
  assert (Hq := H demo_lazy demo_vals 1 0 4%nat demo_lazy_inv
                  ltac:(lia) ltac:(vm_compute; reflexivity)).
  vm_compute in Hq. discriminate Hq.
Qed.

(** C10, amended.  On a tree of size [n >= 1], for [(l, r)] inverted, or
    with [r < 0], or with [l > n-1], [SegmentTree.query(l, r)] and
    [LazySegmentTree.range_query(l, r)] return 0 without raising; the
    eager tree is unchanged; the lazy tree still represents the same
    sequence, and its [tree] and [lazy] arrays are unchanged when [r < 0]
    or [l > n-1]. *)
Theorem disjoint_query_zero est evals lst lvals l r fuel :
  (EagerInv est evals ->
   r < l \/ r < 0 \/ SegmentTree.n est - 1 < l ->
   Z.log2_up (SegmentTree.n est) < Z.of_nat fuel ->
   SegmentTree.query fuel l r est = Ok (0, est)) /\
  (LazyInv lst lvals ->
   r < l \/ r < 0 \/ LazySegmentTree.n lst - 1 < l ->
   Z.log2_up (LazySegmentTree.n lst) < Z.of_nat fuel ->
   exists st',
     LazySegmentTree.range_query fuel l r lst = Ok (0, st') /\
     LazyInv st' lvals /\
     (r < 0 \/ LazySegmentTree.n lst - 1 < l -> st' = lst)).
Proof.
  split.
  - intros Hinv Hlr Hf.
    rewrite (eager_query_inv est evals l r fuel Hinv Hf).
    rewrite zsum_empty by lia. reflexivity.
  - intros Hinv Hlr Hf.
    destruct (Z_lt_dec r 0) as [Hr|Hr];
      [|destruct (Z_lt_dec (LazySegmentTree.n lst - 1) l) as [Hl|Hl]].
    3:{ destruct (lazy_query_inv lst lvals l r fuel Hinv Hf)
          as (st' & Q & _ & Hinv').
        rewrite zsum_empty in Q by lia.
        exists st'. split; [assumption|]. split; [assumption|].
        intros [?|?]; lia. }
    all: exists lst; split; [|split; [assumption|reflexivity]].
    all: destruct fuel as [|f];
      [pose proof (Z.log2_up_nonneg (LazySegmentTree.n lst)); lia|].
    all: unfold LazySegmentTree.range_query;
      cbn [LazySegmentTree._range_query_helper].
    + destruct (Z.ltb_spec r 0); [reflexivity|lia].
    + destruct (Z.ltb_spec (LazySegmentTree.n lst - 1) l); [|lia].
      rewrite orb_true_r. reflexivity.
Qed.

Lemma disjoint_query_zero_witness :
  SegmentTree.query 4 3 1 demo_eager = Ok (0, demo_eager) /\
  exists st',
    LazySegmentTree.range_query 4 1 0 demo_lazy = Ok (0, st') /\
    LazyInv st' demo_vals /\
    (0 < 0 \/ LazySegmentTree.n demo_lazy - 1 < 1 -> st' = demo_lazy).
Proof.
  destruct (disjoint_query_zero demo_eager demo_arr demo_lazy demo_vals 3 1 4)
    as [He _].
  destruct (disjoint_query_zero demo_eager demo_arr demo_lazy demo_vals 1 0 4)
    as [_ Hl].
  split.
  - apply He; [exact demo_eager_inv | lia | vm_compute; reflexivity].
  - apply Hl; [exact demo_lazy_inv | lia | vm_compute; reflexivity].
Defined.

(* ================================================================= *)
(** * Further properties of the two classes *)

(** ** Sums of slices, of overwritten and of incremented sequences *)

Lemma bind_inv {S A B} (m : M S A) (k : A -> M S B) s r :
  bind m k s = Ok r -> exists a s', m s = Ok (a, s') /\ k a s' = Ok r.
Proof. unfold bind. destruct (m s) as [[a s']|]; [eauto|discriminate]. Qed.

Lemma rsum_take_drop vals : forall (l k : nat),
  (l + k <= length vals)%nat ->
  rsum (at_ vals) (Z.of_nat l) k = Py.sum (take k (drop l vals)).
Proof.
  induction vals as [|x vals IH]; intros l k Hlk.
  - simpl in Hlk. assert (k = O) by lia. subst k. rewrite take_0. reflexivity.
  - destruct l as [|l].
    + destruct k as [|k]; [reflexivity|].
      cbn [rsum drop take Py.sum foldr]. change (Z.of_nat 0) with 0.
      rewrite (rsum_at_shift x vals 0) by lia.
      change 0 with (Z.of_nat 0) at 2.
      rewrite (IH O k) by (simpl in Hlk; lia). reflexivity.
    + cbn [drop].
      replace (Z.of_nat (S l)) with (Z.of_nat l + 1) by lia.
      rewrite rsum_at_shift by lia.
      apply IH. simpl in Hlk. lia.
Qed.

Lemma zsum_slice vals l r :
  0 <= l -> l <= r + 1 -> r < Py.len vals ->
  zsum (at_ vals) l r = Py.sum (slice vals l r).
Proof.
  intros Hl Hlr Hr. unfold zsum, slice, Py.len in *.
  rewrite <- (Z2Nat.id l) at 1 by lia.
  apply rsum_take_drop. lia.
Qed.

Lemma overlap_step l r a b :
  a <= b ->
  overlap l r a b
  = (if (l <=? a) && (a <=? r) then 1 else 0) + overlap l r (a + 1) b.
Proof.
  intros Hab. unfold overlap.
  destruct (Z.leb_spec l a), (Z.leb_spec a r); simpl; lia.
Qed.

Lemma rsum_add_range v l r d a (k : nat) :
  rsum (add_range v l r d) a k
  = rsum v a k + d * overlap l r a (a + Z.of_nat k - 1).
Proof.
  revert a. induction k as [|k IH]; intros a.
  - simpl. unfold overlap. lia.
  - cbn [rsum]. rewrite IH.
    replace (a + 1 + Z.of_nat k - 1) with (a + Z.of_nat (S k) - 1) by lia.
    rewrite (overlap_step l r a (a + Z.of_nat (S k) - 1)) by lia.
    unfold add_range.
    destruct ((l <=? a) && (a <=? r)); ring.
Qed.

Lemma zsum_add_range_overlap v l r d a b :
  a <= b + 1 ->
  zsum (add_range v l r d) a b = zsum v a b + d * overlap l r a b.
Proof.
  intros Hab. unfold zsum. rewrite rsum_add_range. do 3 f_equal. lia.
Qed.

Lemma zsum_upd v j x a b :
  a <= b + 1 ->
  zsum (upd v j x) a b
  = zsum v a b + (if (a <=? j) && (j <=? b) then x - v j else 0).
Proof.
  intros Hab.
  destruct (Z.leb_spec a j) as [Haj|Haj], (Z.leb_spec j b) as [Hjb|Hjb]; simpl.
  - rewrite (zsum_split (upd v j x) a (j - 1) b),
            (zsum_split v a (j - 1) b) by lia.
    replace (j - 1 + 1) with j by lia.
    rewrite (zsum_split (upd v j x) j j b), (zsum_split v j j b) by lia.
    rewrite !zsum_one.
    rewrite (zsum_ext (upd v j x) v a (j - 1)),
            (zsum_ext (upd v j x) v (j + 1) b).
    + unfold upd. rewrite Z.eqb_refl. lia.
    + intros i Hi. unfold upd. destruct (Z.eqb_spec i j); [lia|reflexivity].
    + intros i Hi. unfold upd. destruct (Z.eqb_spec i j); [lia|reflexivity].
  - rewrite Z.add_0_r. apply zsum_ext. intros i Hi. unfold upd.
    destruct (Z.eqb_spec i j); [lia|reflexivity].
  - rewrite Z.add_0_r. apply zsum_ext. intros i Hi. unfold upd.
    destruct (Z.eqb_spec i j); [lia|reflexivity].
  - rewrite Z.add_0_r. apply zsum_ext. intros i Hi. unfold upd.
    destruct (Z.eqb_spec i j); [lia|reflexivity].
Qed.

Lemma zsum_valid v a b n :
  0 <= a -> b < n -> zsum v (Z.max a 0) (Z.min b (n - 1)) = zsum v a b.
Proof. intros Ha Hb. f_equal; lia. Qed.

(** Two trees that represent sequences equal on [0, n-1] answer every
    query alike. *)
Lemma lazy_answers_agree st1 vals1 st2 vals2 fuel :
  LazyInv st1 vals1 -> LazyInv st2 vals2 ->
  LazySegmentTree.n st1 = LazySegmentTree.n st2 ->
  (forall i, 0 <= i < LazySegmentTree.n st1 -> at_ vals1 i = at_ vals2 i) ->
  Z.log2_up (LazySegmentTree.n st1) < Z.of_nat fuel ->
  forall a b, exists x t1 t2,
    LazySegmentTree.range_query fuel a b st1 = Ok (x, t1) /\
    LazySegmentTree.range_query fuel a b st2 = Ok (x, t2).
Proof.
  intros I1 I2 Hn Hv Hf a b.
  destruct (lazy_query_inv st1 vals1 a b fuel I1 Hf) as (t1 & Q1 & _ & _).
  destruct (lazy_query_inv st2 vals2 a b fuel I2 ltac:(rewrite <- Hn; exact Hf))
    as (t2 & Q2 & _ & _).
  eexists; exists t1, t2. split; [exact Q1|].
  rewrite Q2, <- Hn. do 2 f_equal. apply zsum_ext. intros i Hi.
  symmetry. apply Hv. lia.
Qed.

Lemma eager_answers_agree st1 vals1 st2 vals2 fuel :
  EagerInv st1 vals1 -> EagerInv st2 vals2 ->
  SegmentTree.n st1 = SegmentTree.n st2 ->
  (forall i, 0 <= i < SegmentTree.n st1 -> at_ vals1 i = at_ vals2 i) ->
  Z.log2_up (SegmentTree.n st1) < Z.of_nat fuel ->
  forall a b, exists x,
    SegmentTree.query fuel a b st1 = Ok (x, st1) /\
    SegmentTree.query fuel a b st2 = Ok (x, st2).
Proof.
  intros I1 I2 Hn Hv Hf a b.
  eexists. split; [apply (eager_query_inv st1 vals1 a b fuel I1 Hf)|].
  rewrite (eager_query_inv st2 vals2 a b fuel I2) by (rewrite <- Hn; exact Hf).
  rewrite <- Hn. do 2 f_equal. apply zsum_ext. intros i Hi.
  symmetry. apply Hv. lia.
Qed.

(** ** Trees as a program holds them *)

Lemma fuel_succ n fuel :
  Z.log2_up n < Z.of_nat fuel -> exists f, fuel = S f.
Proof.
  intros H. pose proof (Z.log2_up_nonneg n).
  destruct fuel as [|f]; [lia|eauto].
Qed.

Lemma root_depth_ok n fuel :
  1 <= n -> Z.log2_up n < Z.of_nat fuel -> depth_ok fuel (n - 1 - 0 + 1).
Proof.
  intros Hn Hf. replace (n - 1 - 0 + 1) with n by lia.
  apply depth_ok_log2; lia.
Qed.

Lemma eager_init_wf arr fuel :
  arr <> [] -> Z.log2_up (Py.len arr) < Z.of_nat fuel ->
  exists st,
    SegmentTree.__init__ fuel arr = Ok st /\
    SegmentTree.n st = Py.len arr /\ eager_wf st arr.
Proof.
  intros Hne Hf. pose proof (len_pos arr Hne) as Hn.
  unfold SegmentTree.__init__.
  destruct (eager_build_ok fuel arr 0 0 (Py.len arr - 1) (Py.len arr)
              (Py.zeros (4 * Py.len arr)))
    as (tr & E & L & O & _);
    [apply root_depth_ok; assumption | lia | lia
    | apply slot_ok_root; assumption
    | unfold Py.zeros; apply length_replicate |].
  rewrite E. eexists; split; [reflexivity|]. split; [reflexivity|].
  split; [repeat split; simpl; assumption|].
  simpl. rewrite L. unfold Py.zeros. apply length_replicate.
Qed.

Lemma eager_update_wf st vals idx x fuel :
  eager_wf st vals -> Z.log2_up (SegmentTree.n st) < Z.of_nat fuel ->
  exists st',
    SegmentTree.update fuel idx x st = Ok (tt, st') /\
    SegmentTree.n st' = SegmentTree.n st /\
    eager_wf st' (set_at vals (clamp 0 (SegmentTree.n st - 1) idx) x).
Proof.
  destruct st as [n tr]. unfold eager_wf, EagerInv, SegmentTree.update. simpl.
  intros ((Hlen & Hn & Hok) & Hsz) Hf.
  destruct (eager_update_ok fuel idx x 0 0 (n - 1) n tr (at_ vals) Hok)
    as (tr' & E & L & O & _); [apply root_depth_ok; assumption|].
  rewrite E. eexists; split; [reflexivity|]. simpl.
  rewrite len_set_at. repeat split; try assumption; [|congruence].
  eapply eager_ok_ext; [exact O|].
  intros i Hi. symmetry. apply at_set_at. lia.
Qed.

Lemma lazy_init_wf arr fuel :
  arr <> [] -> Z.log2_up (Py.len arr) < Z.of_nat fuel ->
  exists st,
    LazySegmentTree.__init__ fuel arr = Ok st /\
    LazySegmentTree.n st = Py.len arr /\ lazy_wf st arr.
Proof.
  intros Hne Hf. pose proof (len_pos arr Hne) as Hn.
  unfold LazySegmentTree.__init__. rewrite lazy_build_eager.
  destruct (eager_build_ok fuel arr 0 0 (Py.len arr - 1) (Py.len arr)
              (Py.zeros (4 * Py.len arr)))
    as (tr & E & L & O & _);
    [apply root_depth_ok; assumption | lia | lia
    | apply slot_ok_root; assumption
    | unfold Py.zeros; apply length_replicate |].
  rewrite E. eexists; split; [reflexivity|]. split; [reflexivity|].
  unfold Py.zeros in *. rewrite length_replicate in L.
  split; [|split; [|split]]; simpl.
  - repeat split; simpl; try assumption.
    apply eager_lazy_ok; [assumption|].
    intros i Hi. apply lookup_replicate_2. lia.
  - assumption.
  - apply length_replicate.
  - apply lookup_replicate_2. lia.
Qed.

Lemma lazy_update_wf st vals l r d fuel :
  lazy_wf st vals -> Z.log2_up (LazySegmentTree.n st) < Z.of_nat fuel ->
  exists st',
    LazySegmentTree.range_update fuel l r d st = Ok (tt, st') /\
    LazySegmentTree.n st' = LazySegmentTree.n st /\
    lazy_wf st' (add_on vals l r d).
Proof.
  destruct st as [n tr lz].
  unfold lazy_wf, LazyInv, LazySegmentTree.range_update. simpl.
  intros ((Hlen & Hn & Hok) & Ht & Hl & Hz) Hf.
  destruct (lazy_update_ok fuel l r d 0 0 (n - 1) n tr lz (at_ vals) Hok)
    as (tr' & lz' & E & Lt & Ll & O & Z0 & _);
    [apply root_depth_ok; assumption|].
  rewrite E. eexists; split; [reflexivity|]. simpl.
  rewrite len_add_on. repeat split; try assumption; try congruence.
  eapply lazy_ok_ext; [exact O|].
  intros i Hi. symmetry. apply at_add_on. lia.
Qed.

Lemma lazy_query_wf st vals l r fuel :
  lazy_wf st vals -> Z.log2_up (LazySegmentTree.n st) < Z.of_nat fuel ->
  exists st',
    LazySegmentTree.range_query fuel l r st
      = Ok (zsum (at_ vals) (Z.max l 0) (Z.min r (LazySegmentTree.n st - 1)), st') /\
    LazySegmentTree.n st' = LazySegmentTree.n st /\
    lazy_wf st' vals.
Proof.
  destruct st as [n tr lz].
  unfold lazy_wf, LazyInv, LazySegmentTree.range_query. simpl.
  intros ((Hlen & Hn & Hok) & Ht & Hl & Hz) Hf.
  destruct (fuel_succ _ _ Hf) as [f ->].
  pose proof (root_depth_ok n (S f) Hn Hf) as Hd.
  cbn [LazySegmentTree._range_query_helper].
  destruct ((r <? 0) || (n - 1 <? l)) eqn:Hout.
  { exists (LazySegmentTree.mk n tr lz). rewrite zsum_empty.
    - simpl. repeat split; assumption.
    - apply orb_true_iff in Hout. rewrite !Z.ltb_lt in Hout. lia. }
  apply orb_false_iff in Hout. rewrite !Z.ltb_ge in Hout.
  assert (Ep : LazySegmentTree._push 0 0 (n - 1) (LazySegmentTree.mk n tr lz)
               = Ok (tt, LazySegmentTree.mk n tr lz)).
  { unfold LazySegmentTree._push.
    rewrite (bind_ok _ _ _ _ _ (lazy_lazy_get n tr lz 0 0 ltac:(lia) Hz)).
    reflexivity. }
  rewrite (bind_ok _ _ _ _ _ Ep).
  destruct ((l <=? 0) && (n - 1 <=? r)) eqn:Hin.
  { apply andb_true_iff in Hin. rewrite !Z.leb_le in Hin.
    rewrite (lazy_tree_get n tr lz 0 _ ltac:(lia)
               (lazy_ok_pushed _ _ _ _ _ _ Hok Hz)).
    replace (Z.max l 0) with 0 by lia. replace (Z.min r (n - 1)) with (n - 1) by lia.
    eexists; split; [reflexivity|]. simpl. repeat split; assumption. }
  assert (Hlt : 0 < n - 1).
  { destruct (Z.leb_spec l 0), (Z.leb_spec (n - 1) r); simpl in Hin;
      try discriminate; lia. }
  destruct (lazy_ok_children _ _ _ _ _ _ Hok Hz Hlt) as [C1 C2].
  destruct (depth_ok_step _ _ _ Hd Hlt) as [Hd1 Hd2].
  destruct (lazy_query_ok f l r _ _ _ n _ _ _ C1 Hd1)
    as (tr2 & lz2 & E2 & Lt2 & Ll2 & O2 & Ft2 & Fl2).
  rewrite (bind_ok _ _ _ _ _ E2).
  assert (C2' : lazy_ok tr2 lz2 (at_ vals) (2 * 0 + 2) ((0 + (n - 1)) / 2 + 1)
                  (n - 1) 0)
    by (eapply lazy_ok_frame; [exact C2| |];
        apply outside_left_inside_right; assumption || lia).
  destruct (lazy_query_ok f l r _ _ _ n _ _ _ C2' Hd2)
    as (tr3 & lz3 & E3 & Lt3 & Ll3 & O3 & Ft3 & Fl3).
  rewrite (bind_ok _ _ _ _ _ E3).
  assert (O2' : lazy_ok tr3 lz3 (at_ vals) (2 * 0 + 1) 0 ((0 + (n - 1)) / 2) 0)
    by (eapply lazy_ok_frame; [exact O2| |];
        apply outside_right_inside_left; assumption || lia).
  assert (Zn : lz3 !! Z.to_nat 0 = Some 0).
  { rewrite (same_outside_at _ _ _ _ Fl3), (same_outside_at _ _ _ _ Fl2);
      [exact Hz|lia|apply not_sub_parent; lia|lia|apply not_sub_parent; lia]. }
  unfold ret. rewrite (zsum_clip_split (at_ vals) l r 0 (n - 1) Hlt).
  eexists; split; [reflexivity|]. simpl.
  split; [reflexivity|].
  split; [|split; [congruence|split; [congruence|exact Zn]]].
  split; [assumption|]. split; [assumption|].
  apply lazy_ok_rebuild; try assumption; [lia|].
  rewrite (same_outside_at _ _ _ _ Ft3), (same_outside_at _ _ _ _ Ft2);
    [apply (lazy_ok_pushed _ _ _ _ _ _ Hok Hz)|lia|apply not_sub_parent; lia
    |lia|apply not_sub_parent; lia].
Qed.

Lemma eager_run_wf fuel cs : forall st vals,
  eager_wf st vals -> Z.log2_up (SegmentTree.n st) < Z.of_nat fuel ->
  exists st' vals',
    eager_run fuel cs st = Ok (tt, st') /\
    SegmentTree.n st' = SegmentTree.n st /\ eager_wf st' vals'.
Proof.
  induction cs as [|c cs IH]; intros st vals Hwf Hf.
  - exists st, vals. auto.
  - cbn [eager_run]. destruct c as [idx val|l r]; cbn [eager_do].
    + destruct (eager_update_wf st vals idx val fuel Hwf Hf)
        as (st1 & E & Hn & Hwf1).
      rewrite (bind_ok _ _ _ _ _ E).
      destruct (IH st1 _ Hwf1 ltac:(rewrite Hn; exact Hf))
        as (st2 & vals2 & E2 & Hn2 & Hwf2).
      exists st2, vals2. split; [assumption|]. split; [congruence|assumption].
    + destruct Hwf as [Hinv Hsz].
      rewrite (bind_ok _ _ _ tt st)
        by (rewrite (bind_ok _ _ _ _ _ (eager_query_inv st vals l r fuel Hinv Hf));
            reflexivity).
      apply (IH st vals (conj Hinv Hsz) Hf).
Qed.

Lemma lazy_run_wf fuel cs : forall st vals,
  lazy_wf st vals -> Z.log2_up (LazySegmentTree.n st) < Z.of_nat fuel ->
  exists st' vals',
    lazy_run fuel cs st = Ok (tt, st') /\
    LazySegmentTree.n st' = LazySegmentTree.n st /\ lazy_wf st' vals'.
Proof.
  induction cs as [|c cs IH]; intros st vals Hwf Hf.
  - exists st, vals. auto.
  - cbn [lazy_run]. destruct c as [l r val|l r]; cbn [lazy_do].
    + destruct (lazy_update_wf st vals l r val fuel Hwf Hf)
        as (st1 & E & Hn & Hwf1).
      rewrite (bind_ok _ _ _ _ _ E).
      destruct (IH st1 _ Hwf1 ltac:(rewrite Hn; exact Hf))
        as (st2 & vals2 & E2 & Hn2 & Hwf2).
      exists st2, vals2. split; [assumption|]. split; [congruence|assumption].
    + destruct (lazy_query_wf st vals l r fuel Hwf Hf)
        as (st1 & E & Hn & Hwf1).
      rewrite (bind_ok _ _ _ tt st1)
        by (rewrite (bind_ok _ _ _ _ _ E); reflexivity).
      destruct (IH st1 _ Hwf1 ltac:(rewrite Hn; exact Hf))
        as (st2 & vals2 & E2 & Hn2 & Hwf2).
      exists st2, vals2. split; [assumption|]. split; [congruence|assumption].
Qed.


Lemma demo_lazy_wf : lazy_wf demo_lazy demo_vals.
Proof. split; [exact demo_lazy_inv|]. repeat split. Qed.

(** ** Range sums *)

(** X1. On a SegmentTree whose current values are [vals], for
    [0 <= l <= r < n], [query(l, r)] returns [sum(vals[l : r + 1])] and
    leaves the tree as it was. *)
Theorem eager_range_sum st vals l r fuel :
  EagerInv st vals ->
  0 <= l <= r /\ r < SegmentTree.n st ->
  Z.log2_up (SegmentTree.n st) < Z.of_nat fuel ->
  SegmentTree.query fuel l r st = Ok (Py.sum (slice vals l r), st).
Proof.
  intros Hinv Hlr Hf. pose proof Hinv as (Hlen & _).
  rewrite (eager_query_inv st vals l r fuel Hinv Hf).
  rewrite zsum_valid, zsum_slice by lia. reflexivity.
Qed.

Lemma eager_range_sum_witness :
  SegmentTree.query 4 1 4 demo_eager = Ok (Py.sum (slice demo_arr 1 4), demo_eager).
Proof.
  apply (eager_range_sum demo_eager demo_arr 1 4 4).
  - exact demo_eager_inv.
  - simpl. lia.
  - vm_compute. reflexivity.
Defined.

(** X2. On a LazySegmentTree whose current values (pending amounts
    included) are [vals], for [0 <= l <= r < n], [range_query(l, r)]
    returns [sum(vals[l : r + 1])], and the tree it leaves still holds the
    values [vals]. *)
Theorem lazy_range_sum st vals l r fuel :
  LazyInv st vals ->
  0 <= l <= r /\ r < LazySegmentTree.n st ->
  Z.log2_up (LazySegmentTree.n st) < Z.of_nat fuel ->
  exists st',
    LazySegmentTree.range_query fuel l r st = Ok (Py.sum (slice vals l r), st') /\
    LazyInv st' vals.
Proof.
  intros Hinv Hlr Hf. pose proof Hinv as (Hlen & _).
  destruct (lazy_query_inv st vals l r fuel Hinv Hf) as (st' & Q & _ & Hinv').
  exists st'. split; [|assumption].
  rewrite Q, zsum_valid, zsum_slice by lia. reflexivity.
Qed.

Lemma lazy_range_sum_witness :
  exists st',
    LazySegmentTree.range_query 4 1 3 demo_lazy
      = Ok (Py.sum (slice demo_vals 1 3), st') /\
    LazyInv st' demo_vals.
Proof.
  apply (lazy_range_sum demo_lazy demo_vals 1 3 4).
  - exact demo_lazy_inv.
  - simpl. lia.
  - vm_compute. reflexivity.
Defined.

(** X3. On a LazySegmentTree, [range_update(l, r, d)] (any [l], [r])
    raises the result of [range_query(a, b)], for [0 <= a <= b < n], by
    [d] times the number of indices that [[l, r]] and [[a, b]] share. *)
Theorem range_update_range_query st vals l r d a b fuel :
  LazyInv st vals ->
  0 <= a <= b /\ b < LazySegmentTree.n st ->
  Z.log2_up (LazySegmentTree.n st) < Z.of_nat fuel ->
  exists st' x s1 s2,
    LazySegmentTree.range_update fuel l r d st = Ok (tt, st') /\
    LazySegmentTree.range_query fuel a b st = Ok (x, s1) /\
    LazySegmentTree.range_query fuel a b st'
      = Ok (x + d * overlap l r a b, s2).
Proof.
  intros Hinv Hab Hf. pose proof Hinv as (Hlen & _).
  destruct (lazy_update_inv st vals l r d fuel Hinv Hf) as (st' & E & Hn & Hinv').
  destruct (lazy_query_inv st vals a b fuel Hinv Hf) as (s1 & Q1 & _ & _).
  destruct (lazy_query_inv st' _ a b fuel Hinv' ltac:(rewrite Hn; exact Hf))
    as (s2 & Q2 & _ & _).
  exists st'. eexists; exists s1, s2.
  split; [assumption|]. split; [exact Q1|].
  rewrite Q2, Hn, !zsum_valid by lia. do 2 f_equal.
  rewrite <- zsum_add_range_overlap by lia.
  apply zsum_ext. intros i Hi. apply at_add_on. lia.
Qed.

Lemma range_update_range_query_witness :
  exists st' x s1 s2,
    LazySegmentTree.range_update 4 1 3 10 demo_lazy = Ok (tt, st') /\
    LazySegmentTree.range_query 4 2 4 demo_lazy = Ok (x, s1) /\
    LazySegmentTree.range_query 4 2 4 st' = Ok (x + 10 * overlap 1 3 2 4, s2).
Proof.
  apply (range_update_range_query demo_lazy demo_vals 1 3 10 2 4 4).
  - exact demo_lazy_inv.
  - simpl. lia.
  - vm_compute. reflexivity.
Defined.

(** X4. On a SegmentTree, for [0 <= idx < n] and [0 <= a <= b < n],
    [update(idx, x)] changes the result of [query(a, b)] by [x] minus the
    former value at [idx] when [a <= idx <= b], and not at all
    otherwise. *)
Theorem update_range_query st vals idx x a b fuel :
  EagerInv st vals ->
  0 <= idx < SegmentTree.n st ->
  0 <= a <= b /\ b < SegmentTree.n st ->
  Z.log2_up (SegmentTree.n st) < Z.of_nat fuel ->
  exists st' y q,
    SegmentTree.update fuel idx x st = Ok (tt, st') /\
    SegmentTree.query fuel idx idx st = Ok (y, st) /\
    SegmentTree.query fuel a b st = Ok (q, st) /\
    SegmentTree.query fuel a b st'
      = Ok ((if (a <=? idx) && (idx <=? b) then q + (x - y) else q), st').
Proof.
  intros Hinv Hidx Hab Hf. pose proof Hinv as (Hlen & _).
  destruct (eager_update_inv st vals idx x fuel Hinv Hf) as (st' & E & Hn & Hinv').
  replace (clamp 0 (SegmentTree.n st - 1) idx) with idx in Hinv'
    by (unfold clamp; lia).
  exists st', (at_ vals idx), (zsum (at_ vals) a b).
  split; [assumption|]. split; [|split].
  - rewrite (eager_query_inv st vals idx idx fuel Hinv Hf).
    rewrite zsum_point by lia. reflexivity.
  - rewrite (eager_query_inv st vals a b fuel Hinv Hf).
    rewrite zsum_valid by lia. reflexivity.
  - rewrite (eager_query_inv st' _ a b fuel Hinv') by (rewrite Hn; exact Hf).
    rewrite Hn, zsum_valid by lia. do 2 f_equal.
    rewrite (zsum_ext _ (upd (at_ vals) idx x))
      by (intros i Hi; apply at_set_at; lia).
    rewrite zsum_upd by lia.
    destruct ((a <=? idx) && (idx <=? b)); lia.
Qed.

Lemma update_range_query_witness :
  exists st' y q,
    SegmentTree.update 4 2 50 demo_eager = Ok (tt, st') /\
    SegmentTree.query 4 2 2 demo_eager = Ok (y, demo_eager) /\
    SegmentTree.query 4 1 4 demo_eager = Ok (q, demo_eager) /\
    SegmentTree.query 4 1 4 st'
      = Ok ((if (1 <=? 2) && (2 <=? 4) then q + (50 - y) else q), st').
Proof.
  apply (update_range_query demo_eager demo_arr 2 50 1 4 4).
  - exact demo_eager_inv.
  - simpl. lia.
  - simpl. lia.
  - vm_compute. reflexivity.
Defined.

(** ** How calls compose *)

(** X5. On a LazySegmentTree, [range_update(l, r, d)] followed by
    [range_update(l, r, -d)] (any [l], [r], [d]) gives every
    [range_query(a, b)] back the result it had before the two calls. *)
Theorem range_update_undo st vals l r d fuel :
  LazyInv st vals ->
  Z.log2_up (LazySegmentTree.n st) < Z.of_nat fuel ->
  exists st1 st2,
    LazySegmentTree.range_update fuel l r d st = Ok (tt, st1) /\
    LazySegmentTree.range_update fuel l r (- d) st1 = Ok (tt, st2) /\
    forall a b, exists x t t',
      LazySegmentTree.range_query fuel a b st = Ok (x, t) /\
      LazySegmentTree.range_query fuel a b st2 = Ok (x, t').
Proof.
  intros Hinv Hf. pose proof Hinv as (Hlen & _).
  destruct (lazy_update_inv st vals l r d fuel Hinv Hf) as (st1 & E1 & Hn1 & I1).
  destruct (lazy_update_inv st1 _ l r (- d) fuel I1 ltac:(rewrite Hn1; exact Hf))
    as (st2 & E2 & Hn2 & I2).
  exists st1, st2. split; [assumption|]. split; [assumption|].
  apply (lazy_answers_agree st vals st2 _ fuel Hinv I2); [congruence| |assumption].
  intros i Hi.
  rewrite at_add_on by (rewrite len_add_on; lia).
  unfold add_range at 1. rewrite at_add_on by lia. unfold add_range.
  destruct ((l <=? i) && (i <=? r)); lia.
Qed.

Lemma range_update_undo_witness :
  exists st1 st2,
    LazySegmentTree.range_update 4 1 3 9 demo_lazy = Ok (tt, st1) /\
    LazySegmentTree.range_update 4 1 3 (- 9) st1 = Ok (tt, st2) /\
    forall a b, exists x t t',
      LazySegmentTree.range_query 4 a b demo_lazy = Ok (x, t) /\
      LazySegmentTree.range_query 4 a b st2 = Ok (x, t').
Proof.
  apply (range_update_undo demo_lazy demo_vals 1 3 9 4).
  - exact demo_lazy_inv.
  - vm_compute. reflexivity.
Defined.

(** X6. On a LazySegmentTree, two range updates may be made in either
    order: after [range_update(l1, r1, d1)] then [range_update(l2, r2,
    d2)], and after the same two calls in the other order, every
    [range_query(a, b)] returns the same result. *)
Theorem range_updates_commute st vals l1 r1 d1 l2 r2 d2 fuel :
  LazyInv st vals ->
  Z.log2_up (LazySegmentTree.n st) < Z.of_nat fuel ->
  exists s12 s21,
    (do! LazySegmentTree.range_update fuel l1 r1 d1 in
     LazySegmentTree.range_update fuel l2 r2 d2) st = Ok (tt, s12) /\
    (do! LazySegmentTree.range_update fuel l2 r2 d2 in
     LazySegmentTree.range_update fuel l1 r1 d1) st = Ok (tt, s21) /\
    forall a b, exists x t t',
      LazySegmentTree.range_query fuel a b s12 = Ok (x, t) /\
      LazySegmentTree.range_query fuel a b s21 = Ok (x, t').
Proof.
  intros Hinv Hf. pose proof Hinv as (Hlen & _).
  destruct (lazy_update_inv st vals l1 r1 d1 fuel Hinv Hf) as (sa & Ea & Hna & Ia).
  destruct (lazy_update_inv sa _ l2 r2 d2 fuel Ia ltac:(rewrite Hna; exact Hf))
    as (s12 & E12 & Hn12 & I12).
  destruct (lazy_update_inv st vals l2 r2 d2 fuel Hinv Hf) as (sb & Eb & Hnb & Ib).
  destruct (lazy_update_inv sb _ l1 r1 d1 fuel Ib ltac:(rewrite Hnb; exact Hf))
    as (s21 & E21 & Hn21 & I21).
  exists s12, s21.
  split; [rewrite (bind_ok _ _ _ _ _ Ea); exact E12|].
  split; [rewrite (bind_ok _ _ _ _ _ Eb); exact E21|].
  apply (lazy_answers_agree s12 _ s21 _ fuel I12 I21); [congruence| |congruence].
  intros i Hi.
  rewrite !at_add_on by (rewrite ?len_add_on; lia).
  unfold add_range at 1 2. rewrite !at_add_on by lia. unfold add_range.
  destruct ((l1 <=? i) && (i <=? r1)), ((l2 <=? i) && (i <=? r2)); lia.
Qed.

Lemma range_updates_commute_witness :
  exists s12 s21,
    (do! LazySegmentTree.range_update 4 0 2 5 in
     LazySegmentTree.range_update 4 1 4 (-3)) demo_lazy = Ok (tt, s12) /\
    (do! LazySegmentTree.range_update 4 1 4 (-3) in
     LazySegmentTree.range_update 4 0 2 5) demo_lazy = Ok (tt, s21) /\
    forall a b, exists x t t',
      LazySegmentTree.range_query 4 a b s12 = Ok (x, t) /\
      LazySegmentTree.range_query 4 a b s21 = Ok (x, t').
Proof.
  apply (range_updates_commute demo_lazy demo_vals 0 2 5 1 4 (-3) 4).
  - exact demo_lazy_inv.
  - vm_compute. reflexivity.
Defined.

(** X7. On a SegmentTree, for [0 <= idx < n], the last write wins:
    after [update(idx, x)] then [update(idx, y)], every [query(a, b)]
    returns what it returns after [update(idx, y)] alone. *)
Theorem update_last_write_wins st vals idx x y fuel :
  EagerInv st vals ->
  0 <= idx < SegmentTree.n st ->
  Z.log2_up (SegmentTree.n st) < Z.of_nat fuel ->
  exists sxy sy,
    (do! SegmentTree.update fuel idx x in SegmentTree.update fuel idx y) st
      = Ok (tt, sxy) /\
    SegmentTree.update fuel idx y st = Ok (tt, sy) /\
    forall a b, exists q,
      SegmentTree.query fuel a b sxy = Ok (q, sxy) /\
      SegmentTree.query fuel a b sy = Ok (q, sy).
Proof.
  intros Hinv Hidx Hf. pose proof Hinv as (Hlen & _).
  destruct (eager_update_inv st vals idx x fuel Hinv Hf) as (sx & Ex & Hnx & Ix).
  destruct (eager_update_inv sx _ idx y fuel Ix ltac:(rewrite Hnx; exact Hf))
    as (sxy & Exy & Hnxy & Ixy).
  destruct (eager_update_inv st vals idx y fuel Hinv Hf) as (sy & Ey & Hny & Iy).
  rewrite Hnx in Ixy.
  replace (clamp 0 (SegmentTree.n st - 1) idx) with idx in *
    by (unfold clamp; lia).
  exists sxy, sy.
  split; [rewrite (bind_ok _ _ _ _ _ Ex); exact Exy|].
  split; [assumption|].
  apply (eager_answers_agree sxy _ sy _ fuel Ixy Iy); [congruence| |congruence].
  intros i Hi.
  rewrite !at_set_at by (rewrite ?len_set_at; lia).
  unfold upd at 1 2. destruct (Z.eqb_spec i idx) as [|Hne]; [reflexivity|].
  rewrite at_set_at by lia. unfold upd.
  destruct (Z.eqb_spec i idx); [contradiction|reflexivity].
Qed.

Lemma update_last_write_wins_witness :
  exists sxy sy,
    (do! SegmentTree.update 4 1 10 in SegmentTree.update 4 1 20) demo_eager
      = Ok (tt, sxy) /\
    SegmentTree.update 4 1 20 demo_eager = Ok (tt, sy) /\
    forall a b, exists q,
      SegmentTree.query 4 a b sxy = Ok (q, sxy) /\
      SegmentTree.query 4 a b sy = Ok (q, sy).
Proof.
  apply (update_last_write_wins demo_eager demo_arr 1 10 20 4).
  - exact demo_eager_inv.
  - simpl. lia.
  - vm_compute. reflexivity.
Defined.

(** X8. Built from the same non-empty sequence, the two classes answer
    alike: [SegmentTree(v).query(a, b)] and
    [LazySegmentTree(v).range_query(a, b)] return the same integer, for
    every [a] and [b]. *)
Theorem classes_agree v a b fuel :
  v <> [] ->
  Z.log2_up (Py.len v) < Z.of_nat fuel ->
  exists est lst x lst',
    SegmentTree.__init__ fuel v = Ok est /\
    LazySegmentTree.__init__ fuel v = Ok lst /\
    SegmentTree.query fuel a b est = Ok (x, est) /\
    LazySegmentTree.range_query fuel a b lst = Ok (x, lst').
Proof.
  intros Hne Hf.
  destruct (eager_init_inv v fuel Hne Hf) as (est & Ee & Ie).
  destruct (lazy_init_inv v fuel Hne Hf) as (lst & El & Il).
  pose proof Ie as (Hne' & _). pose proof Il as (Hnl & _).
  destruct (lazy_query_inv lst v a b fuel Il ltac:(rewrite Hnl; exact Hf))
    as (lst' & Q & _ & _).
  exists est, lst. eexists. exists lst'.
  split; [assumption|]. split; [assumption|]. split.
  - apply (eager_query_inv est v a b fuel Ie). rewrite Hne'. exact Hf.
  - rewrite Q, Hnl, Hne'. reflexivity.
Qed.

Lemma classes_agree_witness :
  exists est lst x lst',
    SegmentTree.__init__ 4 demo_arr = Ok est /\
    LazySegmentTree.__init__ 4 demo_arr = Ok lst /\
    SegmentTree.query 4 2 7 est = Ok (x, est) /\
    LazySegmentTree.range_query 4 2 7 lst = Ok (x, lst').
Proof.
  apply (classes_agree demo_arr 2 7 4).
  - discriminate.
  - vm_compute. reflexivity.
Defined.

(** ** What the methods never do *)

(** X9. After [SegmentTree(arr)] on a non-empty sequence, any sequence of
    [update] and [query] calls, with any arguments at all, runs without
    raising; [n] stays [len(arr)], the [tree] array keeps its length
    [4 * n], and the invariant holds at the end. *)
Theorem eager_calls_never_raise arr cs fuel :
  arr <> [] ->
  Z.log2_up (Py.len arr) < Z.of_nat fuel ->
  exists st st' vals,
    SegmentTree.__init__ fuel arr = Ok st /\
    eager_run fuel cs st = Ok (tt, st') /\
    SegmentTree.n st' = Py.len arr /\
    length (SegmentTree.tree st') = Z.to_nat (4 * Py.len arr) /\
    EagerInv st' vals.
Proof.
  intros Hne Hf.
  destruct (eager_init_wf arr fuel Hne Hf) as (st & E & Hn & Hwf).
  destruct (eager_run_wf fuel cs st arr Hwf ltac:(rewrite Hn; exact Hf))
    as (st' & vals & R & Hn' & (Hinv & Hsz)).
  exists st, st', vals. rewrite Hn', Hn in Hsz.
  repeat split; try assumption; try congruence; apply Hinv.
Qed.

Lemma eager_calls_never_raise_witness :
  exists st st' vals,
    SegmentTree.__init__ 4 demo_arr = Ok st /\
    eager_run 4 [Update (-3) 7; Query 9 2; Update 100 1; Query (-1) 50] st
      = Ok (tt, st') /\
    SegmentTree.n st' = Py.len demo_arr /\
    length (SegmentTree.tree st') = Z.to_nat (4 * Py.len demo_arr) /\
    EagerInv st' vals.
Proof.
  apply (eager_calls_never_raise demo_arr
           [Update (-3) 7; Query 9 2; Update 100 1; Query (-1) 50] 4).
  - discriminate.
  - vm_compute. reflexivity.
Defined.

(** X10. After [LazySegmentTree(arr)] on a non-empty sequence, any
    sequence of [range_update] and [range_query] calls, with any
    arguments at all, runs without raising; [n] stays [len(arr)], both
    arrays keep their length [4 * n], nothing is left pending at the root
    ([lazy[0] == 0]), and the invariant holds at the end. *)
Theorem lazy_calls_never_raise arr cs fuel :
  arr <> [] ->
  Z.log2_up (Py.len arr) < Z.of_nat fuel ->
  exists st st' vals,
    LazySegmentTree.__init__ fuel arr = Ok st /\
    lazy_run fuel cs st = Ok (tt, st') /\
    LazySegmentTree.n st' = Py.len arr /\
    length (LazySegmentTree.tree st') = Z.to_nat (4 * Py.len arr) /\
    length (LazySegmentTree.lazy st') = Z.to_nat (4 * Py.len arr) /\
    LazySegmentTree.lazy st' !! 0%nat = Some 0 /\
    LazyInv st' vals.
Proof.
  intros Hne Hf.
  destruct (lazy_init_wf arr fuel Hne Hf) as (st & E & Hn & Hwf).
  destruct (lazy_run_wf fuel cs st arr Hwf ltac:(rewrite Hn; exact Hf))
    as (st' & vals & R & Hn' & (Hinv & Ht & Hl & Hz)).
  exists st, st', vals. rewrite Hn', Hn in Ht, Hl.
  repeat split; try assumption; try congruence; apply Hinv.
Qed.

Lemma lazy_calls_never_raise_witness :
  exists st st' vals,
    LazySegmentTree.__init__ 4 demo_arr = Ok st /\
    lazy_run 4 [RangeUpdate (-3) 2 7; RangeQuery 4 1; RangeUpdate 0 5 1;
                RangeQuery 2 40] st = Ok (tt, st') /\
    LazySegmentTree.n st' = Py.len demo_arr /\
    length (LazySegmentTree.tree st') = Z.to_nat (4 * Py.len demo_arr) /\
    length (LazySegmentTree.lazy st') = Z.to_nat (4 * Py.len demo_arr) /\
    LazySegmentTree.lazy st' !! 0%nat = Some 0 /\
    LazyInv st' vals.
Proof.
  apply (lazy_calls_never_raise demo_arr
           [RangeUpdate (-3) 2 7; RangeQuery 4 1; RangeUpdate 0 5 1;
            RangeQuery 2 40] 4).
  - discriminate.
  - vm_compute. reflexivity.
Defined.

(** X11. On a LazySegmentTree as a program holds it, [range_update(l, r,
    d)] with [r < 0] or [l > n - 1] changes nothing: the object is left
    exactly as it was. *)
Theorem range_update_outside_noop st vals l r d fuel :
  lazy_wf st vals ->
  r < 0 \/ LazySegmentTree.n st - 1 < l ->
  Z.log2_up (LazySegmentTree.n st) < Z.of_nat fuel ->
  LazySegmentTree.range_update fuel l r d st = Ok (tt, st).
Proof.
  destruct st as [n tr lz]. unfold lazy_wf. simpl.
  intros (_ & _ & _ & Hz) Hlr Hf.
  destruct (fuel_succ _ _ Hf) as [f ->].
  unfold LazySegmentTree.range_update. simpl LazySegmentTree.n.
  cbn [LazySegmentTree._range_update_helper].
  assert (Ep : LazySegmentTree._push 0 0 (n - 1) (LazySegmentTree.mk n tr lz)
               = Ok (tt, LazySegmentTree.mk n tr lz)).
  { unfold LazySegmentTree._push.
    rewrite (bind_ok _ _ _ _ _ (lazy_lazy_get n tr lz 0 0 ltac:(lia) Hz)).
    reflexivity. }
  rewrite (bind_ok _ _ _ _ _ Ep).
  destruct (Z.ltb_spec r 0); [reflexivity|].
  destruct (Z.ltb_spec (n - 1) l); [reflexivity|lia].
Qed.

Lemma range_update_outside_noop_witness :
  LazySegmentTree.range_update 4 5 9 100 demo_lazy = Ok (tt, demo_lazy).
Proof.
  apply (range_update_outside_noop demo_lazy demo_vals 5 9 100 4).
  - exact demo_lazy_wf.
  - simpl. lia.
  - vm_compute. reflexivity.
Defined.

Lemma py_get_set (l : list Z) i x l' :
  Py.setitem l i x = Ok l' -> Py.getitem l' i = Ok x.
Proof.
  unfold Py.setitem, Py.getitem.
  destruct (Py.index (Z.of_nat (length l)) i) as [k|] eqn:Ek; [|discriminate].
  intros [= <-]. rewrite length_insert, Ek.
  rewrite list_lookup_insert_eq; [reflexivity|].
  unfold Py.index in Ek.
  destruct (Z.leb_spec 0 i), (Z.ltb_spec i (Z.of_nat (length l))),
    (Z.leb_spec (- Z.of_nat (length l)) i), (Z.ltb_spec i 0);
    simpl in Ek; try discriminate; injection Ek as <-; lia.
Qed.

Lemma lazy_get_same i st z st' :
  LazySegmentTree.lazy_get i st = Ok (z, st') -> st' = st.
Proof.
  unfold LazySegmentTree.lazy_get, lift.
  destruct (Py.getitem (LazySegmentTree.lazy st) i); [|discriminate].
  intros [= _ <-]. reflexivity.
Qed.

Lemma lazy_set_get i x st st' :
  LazySegmentTree.lazy_set i x st = Ok (tt, st') ->
  LazySegmentTree.lazy_get i st' = Ok (x, st').
Proof.
  unfold LazySegmentTree.lazy_set, LazySegmentTree.lazy_get, lift.
  destruct (Py.setitem (LazySegmentTree.lazy st) i x) as [l'|] eqn:E;
    [|discriminate].
  intros [= <-]. simpl. rewrite (py_get_set _ _ _ _ E). reflexivity.
Qed.

(** X12. [_push] is idempotent on every object, well formed or not: if
    [_push(node, start, end)] returns, then [lazy[node]] reads 0 and a
    second [_push(node, start, end)] returns without changing
    anything. *)
Theorem push_idempotent node s e st st' :
  LazySegmentTree._push node s e st = Ok (tt, st') ->
  LazySegmentTree.lazy_get node st' = Ok (0, st') /\
  LazySegmentTree._push node s e st' = Ok (tt, st').
Proof.
  intros H.
  assert (G : LazySegmentTree.lazy_get node st' = Ok (0, st')).
  { unfold LazySegmentTree._push in H.
    apply bind_inv in H as (z & s0 & E0 & H).
    pose proof (lazy_get_same _ _ _ _ E0). subst s0.
    destruct (Z.eqb_spec z 0) as [Hz|Hz].
    - unfold ret in H. injection H as <-. rewrite Hz in E0. exact E0.
    - apply bind_inv in H as (a & s1 & _ & H).
      apply bind_inv in H as (z1 & s2 & _ & H).
      apply bind_inv in H as (u1 & s3 & _ & H).
      apply bind_inv in H as (u2 & s4 & _ & H).
      apply lazy_set_get in H. exact H. }
  split; [exact G|].
  unfold LazySegmentTree._push. rewrite (bind_ok _ _ _ _ _ G). reflexivity.
Qed.

Lemma push_idempotent_witness :
  exists st',
    LazySegmentTree._push 1 0 2 demo_lazy = Ok (tt, st') /\
    st' <> demo_lazy /\
    LazySegmentTree.lazy_get 1 st' = Ok (0, st') /\
    LazySegmentTree._push 1 0 2 st' = Ok (tt, st').
Proof.
  eexists. split; [vm_compute; reflexivity|]. split; [discriminate|].
  apply (push_idempotent 1 0 2 demo_lazy). vm_compute. reflexivity.
Defined.

Lemma eager_query_helper_pure fuel : forall l r node s e st x st',
  SegmentTree._query_helper fuel l r node s e st = Ok (x, st') -> st' = st.
Proof.
  induction fuel as [|fuel IH]; intros l r node s e st x st' H;
    [discriminate|].
  cbn [SegmentTree._query_helper] in H.
  destruct ((r <? s) || (e <? l)).
  { injection H as _ <-. reflexivity. }
  destruct ((l <=? s) && (e <=? r)).
  { unfold SegmentTree.tree_get, lift in H.
    destruct (Py.getitem (SegmentTree.tree st) node); [|discriminate].
    injection H as _ <-. reflexivity. }
  apply bind_inv in H as (a & s1 & E1 & H).
  apply bind_inv in H as (b & s2 & E2 & H).
  injection H as _ <-.
  apply IH in E1. apply IH in E2. congruence.
Qed.

(** X13. [SegmentTree.query] never writes: on every object, well formed
    or not, and for all arguments, a [query(l, r)] that returns leaves
    the object exactly as it was. *)
Theorem eager_query_read_only fuel l r st x st' :
  SegmentTree.query fuel l r st = Ok (x, st') -> st' = st.
Proof. unfold SegmentTree.query. apply eager_query_helper_pure. Qed.

Lemma eager_query_read_only_witness :
  SegmentTree.mk 3 [7; 1; 1; 1; 1; 0; 0; 0; 0; 0; 0; 0]
  = SegmentTree.mk 3 [7; 1; 1; 1; 1; 0; 0; 0; 0; 0; 0; 0].
Proof.
  apply (eager_query_read_only 5 1 2
           (SegmentTree.mk 3 [7; 1; 1; 1; 1; 0; 0; 0; 0; 0; 0; 0]) 2).
  vm_compute. reflexivity.
Defined.

(** ** Recursion depth and the 4n allocation *)

Lemma eager_build_too_shallow fuel : forall arr node s e st,
  s <= e -> 2 ^ (Z.of_nat fuel - 1) < e - s + 1 ->
  SegmentTree.build fuel arr node s e st = Raise RecursionError.
Proof.
  induction fuel as [|fuel IH]; intros arr node s e st Hse Hd; [reflexivity|].
  replace (Z.of_nat (S fuel) - 1) with (Z.of_nat fuel) in Hd by lia.
  pose proof (pow2_pos fuel).
  cbn [SegmentTree.build].
  destruct (Z.eqb_spec s e) as [|_]; [lia|].
  assert (Hlt : s < e) by lia.
  pose proof (mid_bounds s e Hlt).
  pose proof (Z.mul_succ_div_gt (s + e) 2 ltac:(lia)).
  apply bind_raise. apply IH; [lia|].
  destruct fuel as [|f].
  - simpl. lia.
  - rewrite pow2_succ in Hd.
    replace (Z.of_nat (S f) - 1) with (Z.of_nat f) by lia. lia.
Qed.

(** X14. For a non-empty sequence of length [n], construction of either
    class ends in [RecursionError] exactly when the recursion depth it is
    allowed is at most [ceil(log2 n)]: [build] nests [ceil(log2 n) + 1]
    calls, no more and no fewer. *)
Theorem build_depth_exact arr fuel :
  arr <> [] ->
  (SegmentTree.__init__ fuel arr = Raise RecursionError <->
   Z.of_nat fuel <= Z.log2_up (Py.len arr)) /\
  (LazySegmentTree.__init__ fuel arr = Raise RecursionError <->
   Z.of_nat fuel <= Z.log2_up (Py.len arr)).
Proof.
  intros Hne. pose proof (len_pos arr Hne) as Hn.
  assert (Hfail : Z.of_nat fuel <= Z.log2_up (Py.len arr) ->
                  forall st, SegmentTree.build fuel arr 0 0 (Py.len arr - 1) st
                             = Raise RecursionError).
  { intros Hf st. apply eager_build_too_shallow; [lia|].
    replace (Py.len arr - 1 - 0 + 1) with (Py.len arr) by lia.
    destruct (Z_lt_le_dec (2 ^ (Z.of_nat fuel - 1)) (Py.len arr)) as [|Hle];
      [assumption|].
    apply Z.log2_up_le_pow2 in Hle; lia. }
  split; split.
  - intros H. destruct (Z_lt_le_dec (Z.log2_up (Py.len arr)) (Z.of_nat fuel))
      as [Hf|Hf]; [|assumption].
    destruct (eager_init_inv arr fuel Hne Hf) as (st & E & _). congruence.
  - intros Hf. unfold SegmentTree.__init__. rewrite Hfail by assumption.
    reflexivity.
  - intros H. destruct (Z_lt_le_dec (Z.log2_up (Py.len arr)) (Z.of_nat fuel))
      as [Hf|Hf]; [|assumption].
    destruct (lazy_init_inv arr fuel Hne Hf) as (st & E & _). congruence.
  - intros Hf. unfold LazySegmentTree.__init__.
    rewrite lazy_build_eager, Hfail by assumption. reflexivity.
Qed.

Lemma build_depth_exact_witness :
  (SegmentTree.__init__ 3 demo_arr = Raise RecursionError <->
   Z.of_nat 3 <= Z.log2_up (Py.len demo_arr)) /\
  (LazySegmentTree.__init__ 3 demo_arr = Raise RecursionError <->
   Z.of_nat 3 <= Z.log2_up (Py.len demo_arr)).
Proof. apply (build_depth_exact demo_arr 3). discriminate. Defined.

Lemma covers_slot_ok n i s e :
  1 <= n -> covers n i s e -> slot_ok n i s e /\ 0 <= s /\ s <= e /\ e < n.
Proof.
  intros Hn. induction 1 as [|i s e _ IH Hse|i s e _ IH Hse].
  - split; [apply slot_ok_root; assumption|lia].
  - destruct IH as (Hs & IH). pose proof (mid_bounds _ _ Hse).
    split; [apply (slot_ok_step _ _ _ _ Hs Hse)|lia].
  - destruct IH as (Hs & IH). pose proof (mid_bounds _ _ Hse).
    split; [apply (slot_ok_step _ _ _ _ Hs Hse)|lia].
Qed.

(** X15. The allocation [[0] * (4 * n)] is large enough: every node that
    the recursion from the root [(0, 0, n - 1)] reaches has its slot in
    [0 .. 4n - 1] and its segment [start .. end] non-empty and inside
    [0 .. n - 1]. *)
Theorem reached_slot_in_allocation n i s e :
  1 <= n -> covers n i s e ->
  0 <= i < 4 * n /\ 0 <= s /\ s <= e /\ e < n.
Proof.
  intros Hn Hc. destruct (covers_slot_ok n i s e Hn Hc) as ([Hi _] & H).
  split; assumption.
Qed.

Lemma reached_slot_in_allocation_witness :
  0 <= 12 < 4 * 6 /\ 0 <= 4 /\ 4 <= 4 /\ 4 < 6.
Proof.
  apply (reached_slot_in_allocation 6 12 4 4); [lia|].
  exact (covers_right 6 5 3 4
           (covers_left 6 2 3 5
              (covers_right 6 0 0 5 (covers_root 6) eq_refl) eq_refl) eq_refl).
Defined.

(** ** More on how calls compose *)

(** X16. On a SegmentTree, point updates at two different valid indices
    may be made in either order: every [query(a, b)] returns the same
    result after [update(i, x); update(j, y)] as after
    [update(j, y); update(i, x)]. *)
Theorem updates_commute st vals i x j y fuel :
  EagerInv st vals ->
  0 <= i < SegmentTree.n st -> 0 <= j < SegmentTree.n st -> i <> j ->
  Z.log2_up (SegmentTree.n st) < Z.of_nat fuel ->
  exists sij sji,
    (do! SegmentTree.update fuel i x in SegmentTree.update fuel j y) st
      = Ok (tt, sij) /\
    (do! SegmentTree.update fuel j y in SegmentTree.update fuel i x) st
      = Ok (tt, sji) /\
    forall a b, exists q,
      SegmentTree.query fuel a b sij = Ok (q, sij) /\
      SegmentTree.query fuel a b sji = Ok (q, sji).
Proof.
  intros Hinv Hi Hj Hij Hf. pose proof Hinv as (Hlen & _).
  destruct (eager_update_inv st vals i x fuel Hinv Hf) as (si & Ei & Hni & Ii).
  destruct (eager_update_inv si _ j y fuel Ii ltac:(rewrite Hni; exact Hf))
    as (sij & Eij & Hnij & Iij).
  destruct (eager_update_inv st vals j y fuel Hinv Hf) as (sj & Ej & Hnj & Ij).
  destruct (eager_update_inv sj _ i x fuel Ij ltac:(rewrite Hnj; exact Hf))
    as (sji & Eji & Hnji & Iji).
  rewrite Hni in Iij. rewrite Hnj in Iji.
  replace (clamp 0 (SegmentTree.n st - 1) i) with i in *
    by (unfold clamp; lia).
  replace (clamp 0 (SegmentTree.n st - 1) j) with j in *
    by (unfold clamp; lia).
  exists sij, sji.
  split; [rewrite (bind_ok _ _ _ _ _ Ei); exact Eij|].
  split; [rewrite (bind_ok _ _ _ _ _ Ej); exact Eji|].
  apply (eager_answers_agree sij _ sji _ fuel Iij Iji); [congruence| |congruence].
  intros k Hk.
  rewrite !at_set_at by (rewrite ?len_set_at; lia).
  unfold upd at 1 2. rewrite !at_set_at by lia. unfold upd.
  destruct (Z.eqb_spec k i), (Z.eqb_spec k j); try reflexivity. lia.
Qed.

Lemma updates_commute_witness :
  exists sij sji,
    (do! SegmentTree.update 4 1 10 in SegmentTree.update 4 4 (-2)) demo_eager
      = Ok (tt, sij) /\
    (do! SegmentTree.update 4 4 (-2) in SegmentTree.update 4 1 10) demo_eager
      = Ok (tt, sji) /\
    forall a b, exists q,
      SegmentTree.query 4 a b sij = Ok (q, sij) /\
      SegmentTree.query 4 a b sji = Ok (q, sji).
Proof.
  apply (updates_commute demo_eager demo_arr 1 10 4 (-2) 4).
  - exact demo_eager_inv.
  - simpl. lia.
  - simpl. lia.
  - lia.
  - vm_compute. reflexivity.
Defined.

(** X17. On a LazySegmentTree, two range updates of the same range add
    up: after [range_update(l, r, d1)] then [range_update(l, r, d2)]
    every [range_query(a, b)] returns what it returns after the single
    call [range_update(l, r, d1 + d2)]. *)
Theorem range_updates_merge st vals l r d1 d2 fuel :
  LazyInv st vals ->
  Z.log2_up (LazySegmentTree.n st) < Z.of_nat fuel ->
  exists s2 s1,
    (do! LazySegmentTree.range_update fuel l r d1 in
     LazySegmentTree.range_update fuel l r d2) st = Ok (tt, s2) /\
    LazySegmentTree.range_update fuel l r (d1 + d2) st = Ok (tt, s1) /\
    forall a b, exists x t t',
      LazySegmentTree.range_query fuel a b s2 = Ok (x, t) /\
      LazySegmentTree.range_query fuel a b s1 = Ok (x, t').
Proof.
  intros Hinv Hf. pose proof Hinv as (Hlen & _).
  destruct (lazy_update_inv st vals l r d1 fuel Hinv Hf) as (sa & Ea & Hna & Ia).
  destruct (lazy_update_inv sa _ l r d2 fuel Ia ltac:(rewrite Hna; exact Hf))
    as (s2 & E2 & Hn2 & I2).
  destruct (lazy_update_inv st vals l r (d1 + d2) fuel Hinv Hf)
    as (s1 & E1 & Hn1 & I1).
  exists s2, s1.
  split; [rewrite (bind_ok _ _ _ _ _ Ea); exact E2|].
  split; [assumption|].
  apply (lazy_answers_agree s2 _ s1 _ fuel I2 I1); [congruence| |congruence].
  intros i Hi.
  rewrite !at_add_on by (rewrite ?len_add_on; lia).
  unfold add_range at 1. rewrite at_add_on by lia. unfold add_range.
  destruct ((l <=? i) && (i <=? r)); lia.
Qed.

Lemma range_updates_merge_witness :
  exists s2 s1,
    (do! LazySegmentTree.range_update 4 1 3 5 in
     LazySegmentTree.range_update 4 1 3 6) demo_lazy = Ok (tt, s2) /\
    LazySegmentTree.range_update 4 1 3 (5 + 6) demo_lazy = Ok (tt, s1) /\
    forall a b, exists x t t',
      LazySegmentTree.range_query 4 a b s2 = Ok (x, t) /\
      LazySegmentTree.range_query 4 a b s1 = Ok (x, t').
Proof.
  apply (range_updates_merge demo_lazy demo_vals 1 3 5 6 4).
  - exact demo_lazy_inv.
  - vm_compute. reflexivity.
Defined.


